(** * opt_einsum_fx: the einsum rewrite pass over torch.fx graphs

    A shallow embedding of [optimize_einsums_graph]
    (src/opt_einsum_fx/_opt_ein.py) and of the parts of [torch.fx] it
    drives ([Graph.node_copy], [map_arg], [Graph.lint], graph execution),
    followed by the properties the specification states about the pass.

    The path optimizer ([opt_einsum.contract_path]), the contraction
    expander ([opt_einsum.contract._core_contract] run over [fx.Proxy]
    operands) and the naming scheme of [fx.Graph] are collaborators of the
    pass, not part of it: the pass is parameterised by them (class
    [Externals]) and what is assumed of them is stated in the classes
    [ExternalLaws] and [SoundExpansion]. *)

From Stdlib Require Import Ascii String.
From stdpp Require Import gmap strings stringmap.

Open Scope string_scope.
Open Scope list_scope.

Local Set Warnings "-register-all".

(** ** Exceptions and fallible computations *)

(** The exceptions that can leave the pass.  [External] stands for whatever
    a collaborator raises. *)
Inductive Exn :=
| KeyError (key : string)
| IndexError
| RuntimeError (msg : string)
| External (msg : string).

Inductive Result (A : Type) :=
| Ok (a : A)
| Raise (e : Exn).
Arguments Ok {A} a.
Arguments Raise {A} e.

Global Instance Result_bind : MBind Result := fun A B f m =>
  match m with
  | Ok a => f a
  | Raise e => Raise e
  end.
Global Instance Result_ret : MRet Result := fun A a => Ok a.

(** [[f(x) for x in l]] for a fallible [f]: the first failure is raised. *)
Definition mapR {A B} (f : A -> Result B) : list A -> Result (list B) :=
  fix go l :=
    match l with
    | [] => Ok []
    | x :: t => y ← f x; t' ← go t; Ok (y :: t')
    end.

(** ** Data model: nodes, arguments, graphs *)

Inductive Op :=
| placeholder | get_attr | call_function | call_method | call_module | output.

(** A node's target: a Python callable (identified by its qualified name)
    for [call_function], an attribute or method name otherwise. *)
Inductive Target :=
| Callable (qualname : string)
| Attr (attr : string).

Inductive Literal :=
| LStr (s : string)
| LInt (z : Z)
| LBool (b : bool)
| LNone.

(** [torch.fx.node.Argument]: a reference to a node, a literal, or a tuple,
    list, dict or slice of arguments.  The type of references is a
    parameter: node names inside a graph, values during execution. *)
Inductive Argument (R : Type) :=
| ANode (r : R)
| ALit (l : Literal)
| ATuple (xs : list (Argument R))
| AList (xs : list (Argument R))
| ADict (kvs : list (string * Argument R))
| ASlice (start stop step : Argument R).
Arguments ANode {R} r.
Arguments ALit {R} l.
Arguments ATuple {R} xs.
Arguments AList {R} xs.
Arguments ADict {R} kvs.
Arguments ASlice {R} start stop step.

Definition Shape := list nat.

(** A reference to a [Node] object is its name, which [fx.Graph] keeps
    unique within a graph; attributes of a referenced node are read through
    the graph that holds it.  [shape] is the attribute attached by
    [ShapeProp] ([None]: the attribute is absent). *)
Record Node := {
  name : string;
  op : Op;
  target : Target;
  args : list (Argument string);
  kwargs : list (string * Argument string);
  type : option string;
  shape : option Shape;
}.

Definition Graph := list Node.

Global Instance Op_eq_dec : EqDecision Op.
Proof. solve_decision. Defined.
Global Instance Target_eq_dec : EqDecision Target.
Proof. solve_decision. Defined.

Definition names (g : Graph) : list string := name <$> g.

(** [node] with its keyword arguments replaced. *)
Definition with_kwargs (kw : list (string * Argument string)) (node : Node) : Node :=
  {| name := name node; op := op node; target := target node; args := args node;
     kwargs := kw; type := type node; shape := shape node |}.

(** ** torch.fx: map_arg, node_copy, lint *)

(** [map_aggregate] / [map_arg]: apply [fn] to every node reference, at any
    depth, keeping the structure. *)
Fixpoint map_arg {R R'} (fn : R -> Result R') (a : Argument R) : Result (Argument R') :=
  match a with
  | ANode r => r' ← fn r; Ok (ANode r')
  | ALit l => Ok (ALit l)
  | ATuple xs => xs' ← mapR (map_arg fn) xs; Ok (ATuple xs')
  | AList xs => xs' ← mapR (map_arg fn) xs; Ok (AList xs')
  | ADict kvs =>
      kvs' ← mapR (fun kv => match kv with
                               | (k, v) => v' ← map_arg fn v; Ok (k, v')
                               end) kvs;
       Ok (ADict kvs')
  | ASlice a b c =>
      a' ← map_arg fn a; b' ← map_arg fn b; c' ← map_arg fn c;
       Ok (ASlice a' b' c')
  end.

Definition map_args {R R'} (fn : R -> Result R') : list (Argument R) -> Result (list (Argument R')) :=
  mapR (map_arg fn).

Definition map_kwargs {R R'} (fn : R -> Result R')
  : list (string * Argument R) -> Result (list (string * Argument R')) :=
  mapR (fun kv => match kv with
                  | (k, v) => v' ← map_arg fn v; Ok (k, v')
                  end).

(** The node references inside an argument, left to right. *)
Fixpoint arg_refs {R} (a : Argument R) : list R :=
  match a with
  | ANode r => [r]
  | ALit _ => []
  | ATuple xs => concat (map arg_refs xs)
  | AList xs => concat (map arg_refs xs)
  | ADict kvs => concat (map (fun kv => arg_refs (snd kv)) kvs)
  | ASlice a b c => arg_refs a ++ arg_refs b ++ arg_refs c
  end.

Definition node_refs (n : Node) : list string :=
  concat (map arg_refs (args n)) ++ concat (map (fun kv => arg_refs (snd kv)) (kwargs n)).

(** [Graph.lint]: every argument of a node is a node seen earlier in the
    graph, and no name is defined twice.  (The opcode check holds by typing;
    the target checks need a root module, which the pass does not give.) *)
Definition check_arg (seen : list string) (r : string) : Result unit :=
  if bool_decide (r ∈ seen) then Ok tt
  else Raise (RuntimeError "Argument was used before it has been defined").

Fixpoint lint_from (seen : list string) (g : Graph) : Result unit :=
  match g with
  | [] => Ok tt
  | node :: rest =>
      _ ← mapR (check_arg seen) (node_refs node);
      if bool_decide (name node ∈ seen)
      then Raise (RuntimeError "Node redefined name")
      else lint_from (name node :: seen) rest
  end.

Definition lint (g : Graph) : Result unit := lint_from [] g.

(** The graph invariant of the data model alone: each node references only
    nodes that appear earlier. *)
Fixpoint topological_from (seen : list string) (g : Graph) : bool :=
  match g with
  | [] => true
  | node :: rest =>
      forallb (fun r => bool_decide (r ∈ seen)) (node_refs node)
      && topological_from (name node :: seen) rest
  end.

Definition topological (g : Graph) : bool := topological_from [] g.

(** ** The collaborators of the pass *)

Class Externals := {
  (** [path_info.contraction_list]: opaque to the pass. *)
  ContractionList : Type;
  (** [opt_einsum.contract_path(einstr, *shapes, shapes=True)]. *)
  contract_path : Argument string -> list Shape -> Result ContractionList;
  (** [_core_contract(operands, contraction_list, backend="torch")] run on
      proxies of nodes of the graph given last: the graph with the traced
      operations added, and the node of the proxy it returns. *)
  core_contract :
    list (Argument string) -> ContractionList -> Graph -> Result (Graph * string);
  (** The name [fx.Graph] gives to a new node, from the names in use and
      the name asked for. *)
  create_name : list string -> string -> string;
}.

(** ** Diagnostics *)

Inductive Warning := RuntimeWarning (message : string).

(** A computation that may warn and may raise: the warnings emitted, in
    order, and the outcome. *)
Definition M (A : Type) : Type := (list Warning * Result A)%type.

Global Instance M_ret : MRet M := fun A a => ([], Ok a).
Global Instance M_bind : MBind M := fun A B f m =>
  match m with
  | (w, Ok a) => let '(w', r) := f a in (w ++ w', r)
  | (w, Raise e) => (w, Raise e)
  end.

Definition warn (w : Warning) : M unit := ([w], Ok tt).
Definition lift {A} (r : Result A) : M A := ([], r).

Definition warnings {A} (m : M A) : list Warning := fst m.
Definition outcome {A} (m : M A) : Result A := snd m.

(** ** The pass *)

Definition _EINSUM_FUNCS : list Target :=
  [Callable "torch.functional.einsum"; Callable "torch.einsum"].

Definition is_einsum (node : Node) : bool :=
  bool_decide (op node = call_function) && bool_decide (target node ∈ _EINSUM_FUNCS).

Definition find_node (g : Graph) (k : string) : option Node :=
  List.find (fun n => bool_decide (name n = k)) g.

(** [a.shape]: [None] where Python raises [AttributeError], that is for a
    node without the attribute and for anything that is not a node.  (A name
    that is not the name of a node of the graph has no shape either; the
    lookup in [env] that follows fails on it in any case.) *)
Definition arg_shape (graph : Graph) (a : Argument string) : option Shape :=
  match a with
  | ANode k => n ← find_node graph k; shape n
  | _ => None
  end.

(** [[a.shape for a in node.args[1:]]] *)
Definition get_shapes (graph : Graph) (node : Node) : option (list Shape) :=
  mapM (arg_shape graph) (tail (args node)).

Definition lacked_shape_warning (node : Node) : Warning :=
  RuntimeWarning ("einsum " +:+ name node +:+ " lacked shape information; "
    +:+ "not optimizing. "
    +:+ "Did you forget to run ShapeProp on this graph?").

(** [new_graph] and [env] of the source; [env] maps the name of a node of
    the input graph to the node that stands for it in [new_graph]. *)
Record State := {
  new_graph : Graph;
  env : gmap string string;
}.

(** [env[x.name]] *)
Definition env_lookup (e : gmap string string) (k : string) : Result string :=
  match e !! k with
  | Some r => Ok r
  | None => Raise (KeyError k)
  end.

(** [node.args[0]] *)
Definition first_arg (node : Node) : Result (Argument string) :=
  match args node with
  | a :: _ => Ok a
  | [] => Raise IndexError
  end.

Section Pass.
Context `{Ext : Externals}.

(** [Graph.create_node]: the node is appended; it has no shape attribute. *)
Definition create_node (g : Graph) (o : Op) (t : Target)
    (a : list (Argument string)) (kw : list (string * Argument string))
    (nm : string) (ty : option string) : Graph * string :=
  let nm' := create_name (names g) nm in
  (g ++ [{| name := nm'; op := o; target := t; args := a; kwargs := kw;
            type := ty; shape := None |}], nm').

(** [Graph.node_copy] *)
Definition node_copy (g : Graph) (node : Node)
    (arg_transform : string -> Result string) : Result (Graph * string) :=
  a ← map_args arg_transform (args node);
  kw ← map_kwargs arg_transform (kwargs node);
  Ok (create_node g (op node) (target node) a kw (name node) (type node)).

(** [fx.Proxy(env[x.name]) if isinstance(x, fx.Node) else x] *)
Definition proxy_arg (e : gmap string string) (x : Argument string)
  : Result (Argument string) :=
  match x with
  | ANode k => r ← env_lookup e k; Ok (ANode r)
  | _ => Ok x
  end.

(** The branch for an einsum call; [Some] is [node_processed = True]. *)
Definition optimize_einsum (graph : Graph) (st : State) (node : Node)
  : M (option State) :=
  if is_einsum node then
    match get_shapes graph node with
    | None =>
        _ ← warn (lacked_shape_warning node);
        mret None
    | Some shapes =>
        einstr ← lift (first_arg node);
        contraction_list ← lift (contract_path einstr shapes);
        proxy_args ← lift (mapR (proxy_arg (env st)) (args node));
        '(g, new_node) ← lift (core_contract (tail proxy_args) contraction_list
                                 (new_graph st));
        mret (Some {| new_graph := g; env := <[name node := new_node]> (env st) |})
    end
  else mret None.

(** The default case: copy the node over into the new graph. *)
Definition copy_node (st : State) (node : Node) : M State :=
  '(g, new_node) ← lift (node_copy (new_graph st) node (env_lookup (env st)));
  mret {| new_graph := g; env := <[name node := new_node]> (env st) |}.

(** One iteration of the loop over [graph.nodes]. *)
Definition process_node (graph : Graph) (st : State) (node : Node) : M State :=
  handled ← optimize_einsum graph st node;
  match handled with
  | Some st' => mret st'
  | None => copy_node st node
  end.

Fixpoint process_nodes (graph : Graph) (nodes : list Node) (st : State) : M State :=
  match nodes with
  | [] => mret st
  | node :: rest =>
      st' ← process_node graph st node;
      process_nodes graph rest st'
  end.

Definition initial_state : State := {| new_graph := []; env := ∅ |}.

(** The loop of the pass on the whole graph: the state before [lint]. *)
Definition optimize_einsums_loop (graph : Graph) : M State :=
  process_nodes graph graph initial_state.

Definition optimize_einsums_graph (graph : Graph) : M Graph :=
  st ← process_nodes graph graph initial_state;
  _ ← lift (lint (new_graph st));
  mret (new_graph st).

(** The two ways a node is processed, as fallible computations on the
    state: the expansion of an einsum call whose operands have the shapes
    [shapes], and the copy of a node. *)
Definition expand_einsum (st : State) (node : Node) (shapes : list Shape)
  : Result State :=
  einstr ← first_arg node;
  contraction_list ← contract_path einstr shapes;
  proxy_args ← mapR (proxy_arg (env st)) (args node);
  '(g, new_node) ← core_contract (tail proxy_args) contraction_list (new_graph st);
  Ok {| new_graph := g; env := <[name node := new_node]> (env st) |}.

Definition copied (st : State) (node : Node) : Result State :=
  '(g, new_node) ← node_copy (new_graph st) node (env_lookup (env st));
  Ok {| new_graph := g; env := <[name node := new_node]> (env st) |}.

End Pass.

(** ** Executing a graph

    [torch.fx.Interpreter.run]: the nodes are run in order; the arguments of
    a node are fetched from the values of the nodes run before it; a
    placeholder takes the next input, [output] returns its first argument,
    and every other node is a call whose meaning is given by [call]. *)
Class Semantics (V : Type) := {
  call : Op -> Target -> list (Argument V) -> list (string * Argument V) -> Result V;
  (** [v.shape] *)
  shape_of : V -> Shape;
}.

Inductive Step (V : Type) :=
| Next (inputs : list V) (values : gmap string V)
| Return (v : Argument V).
Arguments Next {V} inputs values.
Arguments Return {V} v.

Section Execution.
Context {V : Type} `{Sem : Semantics V}.

Definition fetch (values : gmap string V) (k : string) : Result V :=
  match values !! k with
  | Some v => Ok v
  | None => Raise (KeyError k)
  end.

Definition run_node (n : Node) (inputs : list V) (values : gmap string V)
  : Result (Step V) :=
  a ← map_args (fetch values) (args n);
  kw ← map_kwargs (fetch values) (kwargs n);
  match op n with
  | placeholder =>
      match inputs with
      | v :: rest => Ok (Next rest (<[name n := v]> values))
      | [] => Raise (External "StopIteration")
      end
  | output =>
      match a with
      | v :: _ => Ok (Return v)
      | [] => Raise IndexError
      end
  | o =>
      v ← call o (target n) a kw;
      Ok (Next inputs (<[name n := v]> values))
  end.

Fixpoint run_nodes (g : Graph) (inputs : list V) (values : gmap string V)
  : Result (Step V) :=
  match g with
  | [] => Ok (Next inputs values)
  | n :: rest =>
      s ← run_node n inputs values;
      match s with
      | Next inputs' values' => run_nodes rest inputs' values'
      | Return v => Ok (Return v)
      end
  end.

(** The result of a graph without [output] node is [None]. *)
Definition execute (g : Graph) (inputs : list V) : Result (Argument V) :=
  s ← run_nodes g inputs ∅;
  match s with
  | Return v => Ok v
  | Next _ _ => Ok (ALit LNone)
  end.

(** The annotation of a node, where there is one, is the shape of the value
    the node takes. *)
Definition shape_agrees (graph : Graph) (k : string) (values : gmap string V) : bool :=
  match values !! k, find_node graph k ≫= shape with
  | Some v, Some s => bool_decide (shape_of v = s)
  | _, _ => true
  end.

(** The annotations of [graph] are those of a run on [inputs]: every node
    the run reaches takes a value of the annotated shape. *)
Fixpoint shapes_match_from (graph nodes : Graph) (inputs : list V)
    (values : gmap string V) : bool :=
  match nodes with
  | [] => true
  | n :: rest =>
      match run_node n inputs values with
      | Ok (Next inputs' values') =>
          shape_agrees graph (name n) values'
          && shapes_match_from graph rest inputs' values'
      | _ => true
      end
  end.

Definition shapes_match (graph : Graph) (inputs : list V) : bool :=
  shapes_match_from graph graph inputs ∅.

End Execution.

(** ** What is assumed of the collaborators *)

(** Structure.  A new name is not in use.  The expander only appends to the
    graph, returns a node of the graph, and keeps the graph consistent:
    tracing through proxies creates nodes by [Graph.create_node], with
    arguments that are proxies it was given or made. *)
Class ExternalLaws `{Ext : Externals} : Prop := {
  create_name_fresh : forall used c, create_name used c ∉ used;
  core_contract_appends : forall operands cl g g' r,
    core_contract operands cl g = Ok (g', r) ->
    exists added, g' = g ++ added;
  core_contract_result : forall operands cl g g' r,
    core_contract operands cl g = Ok (g', r) ->
    (forall a k, a ∈ operands -> k ∈ arg_refs a -> k ∈ names g) ->
    r ∈ names g';
  core_contract_lint : forall operands cl g g' r,
    core_contract operands cl g = Ok (g', r) ->
    (forall a k, a ∈ operands -> k ∈ arg_refs a -> k ∈ names g) ->
    lint g = Ok tt ->
    lint g' = Ok tt;
}.

(** Meaning.  [torch.einsum] takes no keyword argument; the optimizer accepts
    only a string as index-string; and on operands of the shapes the path was
    made for, running the operations the expander added leaves in the node it
    returns the value of the einsum call, and the values of the nodes that
    were there as they are. *)
Class SoundExpansion `{Ext : Externals} {V : Type} `{Sem : Semantics V} : Prop := {
  einsum_no_kwargs : forall t a kw v,
    t ∈ _EINSUM_FUNCS -> call call_function t a kw = Ok v -> kw = [];
  contract_path_string : forall einstr shapes cl,
    contract_path einstr shapes = Ok cl -> exists s, einstr = ALit (LStr s);
  core_contract_sound : forall t s shapes cl operands g added r,
    t ∈ _EINSUM_FUNCS ->
    contract_path (ALit (LStr s)) shapes = Ok cl ->
    core_contract operands cl g = Ok (g ++ added, r) ->
    forall (inputs : list V) values vs v,
      map_args (fetch values) operands = Ok (ANode <$> vs) ->
      shape_of <$> vs = shapes ->
      call call_function t (ALit (LStr s) :: (ANode <$> vs)) [] = Ok v ->
      exists values',
        run_nodes added inputs values = Ok (Next inputs values')
        /\ values' !! r = Some v
        /\ forall k, k ∈ names g -> values' !! k = values !! k;
}.

(** ** A sample instance of the collaborators

    Used to run the pass on concrete graphs.  The path it returns treats the
    whole expression as one contraction step (which is what the path of an
    expression of one or two operands is); the expansion of a step is one
    [torch.einsum] call on the operands passed as a tuple, the form the torch
    backend of opt_einsum emits for a step it does not hand to [tensordot].
    Names are made unique by a numeric suffix. *)
Module Sample.

Fixpoint count_commas (s : string) : nat :=
  match s with
  | EmptyString => 0
  | String c rest =>
      (if bool_decide (c = ","%char) then 1 else 0) + count_commas rest
  end.

(** The optimizer rejects an index-string that is not a string, and one
    whose number of terms differs from the number of operands. *)
Definition path (einstr : Argument string) (shapes : list Shape)
  : Result (list string) :=
  match einstr with
  | ALit (LStr s) =>
      if bool_decide (S (count_commas s) = length shapes) then Ok [s]
      else Raise (External
        "Number of einsum subscripts must be equal to the number of operands.")
  | _ => Raise (External "einsum subscripts must be a string")
  end.

Definition unique_name (used : list string) (candidate : string) : string :=
  fresh_string_of_set candidate (list_to_set used).

Definition einsum_node (nm equation : string) (operands : list (Argument string))
  : Node :=
  {| name := nm; op := call_function; target := Callable "torch.einsum";
     args := [ALit (LStr equation); ATuple operands]; kwargs := [];
     type := None; shape := None |}.

(** Each step pops all the operands and appends its result; the result of
    the contraction is [operands[0]]. *)
Fixpoint expand (operands : list (Argument string))
    (contraction_list : list string) (g : Graph) : Result (Graph * string) :=
  match contraction_list with
  | [] =>
      match operands with
      | ANode r :: _ => Ok (g, r)
      | _ => Raise (External "no operand left")
      end
  | equation :: rest =>
      let nm := unique_name (names g) "einsum" in
      expand [ANode nm] rest (g ++ [einsum_node nm equation operands])
  end.

Definition externals : Externals :=
  {| ContractionList := list string;
     contract_path := path;
     core_contract := expand;
     create_name := unique_name |}.

(** Values for running sample graphs: tensors of dimension zero, that is
    numbers.  An einsum of such operands is their product, whether the
    operands are passed one by one or as one tuple. *)
Fixpoint product (xs : list (Argument Z)) : Result Z :=
  match xs with
  | [] => Ok 1%Z
  | ANode z :: rest => p ← product rest; Ok (z * p)%Z
  | _ => Raise (External "einsum(): operands must be tensors")
  end.

Definition scalar_call (o : Op) (t : Target) (a : list (Argument Z))
    (kw : list (string * Argument Z)) : Result Z :=
  match o, kw with
  | call_function, [] =>
      if bool_decide (t ∈ _EINSUM_FUNCS) then
        match a with
        | [ALit (LStr _); ATuple xs] => product xs
        | ALit (LStr _) :: xs => product xs
        | _ => Raise (External "einsum(): bad arguments")
        end
      else if bool_decide (t = Callable "_operator.add") then
        match a with
        | [ANode x; ANode y] => Ok (x + y)%Z
        | _ => Raise (External "add: bad arguments")
        end
      else Raise (External "unknown function")
  | call_function, _ => Raise (External "unexpected keyword argument")
  | _, _ => Raise (External "no module")
  end.

Definition scalars : Semantics Z :=
  {| call := scalar_call; shape_of := fun _ => [] |}.

End Sample.

(** ** The graphs of the test suite

    [fusable] and [unfusable] of tests/test_einsum_optimizer.py as traced by
    [torch.fx.symbolic_trace]; the [_shaped] graphs are those after
    [ShapeProp] on inputs of shapes (3, 4) and (4, 5). *)
Module Tests.

Definition mk (nm : string) (o : Op) (t : Target) (a : list (Argument string))
    (s : option Shape) : Node :=
  {| name := nm; op := o; target := t; args := a; kwargs := [];
     type := None; shape := s |}.

Definition einsum := Callable "torch.functional.einsum".

Definition fusable_shaped : Graph :=
  [ mk "x" placeholder (Attr "x") [] (Some [3; 4]);
    mk "y" placeholder (Attr "y") [] (Some [4; 5]);
    mk "einsum_1" call_function einsum
       [ALit (LStr "ij,jk->ik"); ANode "x"; ANode "y"] (Some [3; 5]);
    mk "einsum_2" call_function einsum
       [ALit (LStr "ik,ij->i"); ANode "einsum_1"; ANode "x"] (Some [3]);
    mk "output" output (Attr "output") [ANode "einsum_2"] (Some [3]) ].

Definition unfusable_shaped : Graph :=
  [ mk "x" placeholder (Attr "x") [] (Some [3; 4]);
    mk "y" placeholder (Attr "y") [] (Some [4; 5]);
    mk "einsum_1" call_function einsum
       [ALit (LStr "ij,jk->ik"); ANode "x"; ANode "y"] (Some [3; 5]);
    mk "einsum_2" call_function einsum
       [ALit (LStr "ik,ij->i"); ANode "einsum_1"; ANode "x"] (Some [3]);
    mk "getitem_1" call_function (Callable "_operator.getitem")
       [ANode "einsum_1";
        ATuple [ASlice (ALit LNone) (ALit LNone) (ALit LNone); ALit (LInt 0)]]
       (Some [3]);
    mk "add_1" call_function (Callable "_operator.add")
       [ANode "einsum_2"; ANode "getitem_1"] (Some [3]);
    mk "output" output (Attr "output") [ANode "add_1"] (Some [3]) ].

(** What the pass makes of [fusable_shaped] with the sample collaborators. *)
Definition fusable_optimized : Graph :=
  [ mk "x" placeholder (Attr "x") [] None;
    mk "y" placeholder (Attr "y") [] None;
    mk "einsum" call_function (Callable "torch.einsum")
       [ALit (LStr "ij,jk->ik"); ATuple [ANode "x"; ANode "y"]] None;
    mk "einsum0" call_function (Callable "torch.einsum")
       [ALit (LStr "ik,ij->i"); ATuple [ANode "einsum"; ANode "x"]] None;
    mk "output" output (Attr "output") [ANode "einsum0"] None ].


(** The same graphs before shape propagation. *)
Definition unshaped (g : Graph) : Graph :=
  (fun n => {| name := name n; op := op n; target := target n; args := args n;
               kwargs := kwargs n; type := type n; shape := None |}) <$> g.

Definition fusable : Graph := unshaped fusable_shaped.
Definition unfusable : Graph := unshaped unfusable_shaped.

(** [lambda a, b: torch.einsum(",->", a, b) + a] on tensors of dimension
    zero, after [ShapeProp]. *)
Definition scalar_graph : Graph :=
  [ mk "a" placeholder (Attr "a") [] (Some []);
    mk "b" placeholder (Attr "b") [] (Some []);
    mk "einsum_1" call_function einsum
       [ALit (LStr ",->"); ANode "a"; ANode "b"] (Some []);
    mk "add_1" call_function (Callable "_operator.add")
       [ANode "einsum_1"; ANode "a"] (Some []);
    mk "output" output (Attr "output") [ANode "add_1"] (Some []) ].

(** What the pass makes of [scalar_graph] with the sample collaborators. *)
Definition scalar_optimized : Graph :=
  [ mk "a" placeholder (Attr "a") [] None;
    mk "b" placeholder (Attr "b") [] None;
    mk "einsum" call_function (Callable "torch.einsum")
       [ALit (LStr ",->"); ATuple [ANode "a"; ANode "b"]] None;
    mk "add_1" call_function (Callable "_operator.add")
       [ANode "einsum"; ANode "a"] None;
    mk "output" output (Attr "output") [ANode "add_1"] None ].

(** An einsum call whose index-string has one term too many. *)
Definition malformed : Graph :=
  [ mk "x" placeholder (Attr "x") [] (Some [3; 4]);
    mk "y" placeholder (Attr "y") [] (Some [4; 5]);
    mk "einsum_1" call_function einsum
       [ALit (LStr "ij,jk,kl->il"); ANode "x"; ANode "y"] (Some [3; 5]);
    mk "output" output (Attr "output") [ANode "einsum_1"] (Some [3; 5]) ].

(** A graph that is not in topological order: [add_1] comes before the node
    it takes as argument. *)
Definition out_of_order : Graph :=
  [ mk "x" placeholder (Attr "x") [] None;
    mk "add_1" call_function (Callable "_operator.add")
       [ANode "x"; ANode "neg_1"] None;
    mk "neg_1" call_function (Callable "_operator.neg") [ANode "x"] None;
    mk "output" output (Attr "output") [ANode "add_1"] None ].

(** [torch.einsum("ij,jk->ik", [x, y])]: the operands passed as one list,
    after [ShapeProp]. *)
Definition list_operands : Graph :=
  [ mk "x" placeholder (Attr "x") [] (Some [3; 4]);
    mk "y" placeholder (Attr "y") [] (Some [4; 5]);
    mk "einsum_1" call_function einsum
       [ALit (LStr "ij,jk->ik"); AList [ANode "x"; ANode "y"]] (Some [3; 5]);
    mk "output" output (Attr "output") [ANode "einsum_1"] (Some [3; 5]) ].

(** An einsum call without any positional argument. *)
Definition no_arguments : Graph :=
  [ mk "x" placeholder (Attr "x") [] None;
    mk "einsum_1" call_function (Callable "torch.einsum") [] None;
    mk "output" output (Attr "output") [ANode "einsum_1"] None ].

(** An einsum call without operands, as [graph.call_function(torch.einsum,
    ("ii",))] builds it. *)
Definition no_operands : Graph :=
  [ mk "einsum_1" call_function (Callable "torch.einsum") [ALit (LStr "ii")] None;
    mk "output" output (Attr "output") [ANode "einsum_1"] None ].

End Tests.

(** ** Vocabulary of the properties *)

Section Vocabulary.
Context `{Ext : Externals}.

(** The optimizer, or the expander, raises [e] on the einsum call [node]
    reached in state [st]. *)
Definition optimizer_raises (node : Node) (shapes : list Shape) (e : Exn) : Prop :=
  exists einstr, first_arg node = Ok einstr /\ contract_path einstr shapes = Raise e.

Definition expander_raises (st : State) (node : Node) (shapes : list Shape)
    (e : Exn) : Prop :=
  exists einstr cl proxy_args,
    first_arg node = Ok einstr
    /\ contract_path einstr shapes = Ok cl
    /\ mapR (proxy_arg (env st)) (args node) = Ok proxy_args
    /\ core_contract (tail proxy_args) cl (new_graph st) = Raise e.

(** [node'] is a copy of [node] made when the environment was [e]: same
    opcode, target and type, arguments taken through [e], no shape. *)
Definition copy_of (e : gmap string string) (node node' : Node) : Prop :=
  op node' = op node
  /\ target node' = target node
  /\ type node' = type node
  /\ map_args (env_lookup e) (args node) = Ok (args node')
  /\ map_kwargs (env_lookup e) (kwargs node) = Ok (kwargs node')
  /\ shape node' = None.

(** The state is consistent: the new graph passes [lint], and [env] maps
    into it. *)
Definition consistent (st : State) : Prop :=
  lint (new_graph st) = Ok tt
  /\ forall k r, env st !! k = Some r -> r ∈ names (new_graph st).

(** What [node] has become in the new graph: the nodes added for it are
    [added]; a node that is not expanded has one copy. *)
Definition segment_of (node : Node) (added : list Node) : Prop :=
  is_einsum node = false ->
  exists e node', added = [node'] /\ copy_of e node node'.

(** The naming gives the nodes of [graph] their names again: when they are
    copied in order into a graph whose names are [used], [Graph.node_copy]
    asks for each the name it has, and that name is the one given. *)
Fixpoint names_kept_from (used : list string) (graph : Graph) : bool :=
  match graph with
  | [] => true
  | node :: rest =>
      bool_decide (create_name used (name node) = name node)
      && names_kept_from (used ++ [name node]) rest
  end.

Definition names_kept (graph : Graph) : bool := names_kept_from [] graph.

(** What a node that is not an einsum call has become when the loop is over
    in state [st]: its copy, which [env] maps its name to. *)
Definition copy_segment (st : State) (node : Node) (added : list Node) : Prop :=
  is_einsum node = false ->
  exists node',
    added = [node']
    /\ env st !! name node = Some (name node')
    /\ copy_of (env st) node node'.

(** The node that stands for the input node [k] is in the new graph. *)
Definition stands_in (st : State) (k : string) : bool :=
  match env st !! k with
  | Some r => bool_decide (r ∈ names (new_graph st))
  | None => false
  end.

(** The new graph when the two placeholders of [Tests.fusable_shaped] have
    been copied. *)
Definition fusable_x : string := create_name [] "x".
Definition fusable_y : string := create_name [fusable_x] "y".
Definition fusable_inputs : Graph :=
  [ Tests.mk fusable_x placeholder (Attr "x") [] None;
    Tests.mk fusable_y placeholder (Attr "y") [] None ].

End Vocabulary.

(** The values of the two runs agree through [env]: the value of a node of
    the input graph is the value of the node of the new graph that stands
    for it. *)
Definition related {V : Type} (st : State) (old new : gmap string V) : Prop :=
  forall k v, old !! k = Some v ->
    exists r, env st !! k = Some r /\ r ∈ names (new_graph st) /\ new !! r = Some v.

(** Every value has the shape annotated on its node. *)
Definition shapes_hold {V : Type} `{Sem : Semantics V} (graph : Graph)
    (values : gmap string V) : Prop :=
  forall k, shape_agrees graph k values = true.

(** [node] without its shape attribute. *)
Definition without_shape (node : Node) : Node :=
  {| name := name node; op := op node; target := target node; args := args node;
     kwargs := kwargs node; type := type node; shape := None |}.

(** [node] is an einsum call that the pass does not expand: one of its
    operands has no shape. *)
Definition lacks_shape (graph : Graph) (node : Node) : bool :=
  is_einsum node && (match get_shapes graph node with Some _ => false | None => true end).

(** [node] has an operand that is not a node: a literal, or operands passed
    as one list. *)
Definition has_non_node_operand (node : Node) : bool :=
  existsb (fun a => match a with ANode _ => false | _ => true end) (tail (args node)).

(** The parameters of the function a graph stands for. *)
Definition placeholders (g : Graph) : list Node :=
  List.filter (fun n => bool_decide (op n = placeholder)) g.

(** Two more facts about tracing through proxies, used where they matter:
    the nodes the expander makes have no shape attribute (they are made by
    [Graph.create_node]), and none of them is a placeholder. *)
Definition expander_sets_no_shape `{Ext : Externals} : Prop :=
  forall operands cl g g' r,
    core_contract operands cl g = Ok (g', r) ->
    Forall (fun n => shape n = None) g ->
    Forall (fun n => shape n = None) g'.

Definition expander_keeps_placeholders `{Ext : Externals} : Prop :=
  forall operands cl g g' r,
    core_contract operands cl g = Ok (g', r) ->
    placeholders g' = placeholders g.

(** ** The driver

    [optimize_einsums]: get a graph for the model, annotate it with shapes
    on the example inputs, rewrite it, and put it in a new [GraphModule].
    The tracer is an argument ([tracer_class]); [ShapeProp] is a
    collaborator. *)

(** [ShapeProp(out_mod)] run on the example inputs: the graph with the
    annotations of that run, or what the run raises. *)
Class ShapeOracle (V : Type) := {
  shape_prop : Graph -> list V -> Result Graph;
}.

(** A model: a [fx.GraphModule], made of a root module and a graph, or
    anything else that can be traced. *)
Inductive Model (F : Type) :=
| GraphModule (root : Model F) (graph : Graph)
| Plain (f : F).
Arguments GraphModule {F} root graph.
Arguments Plain {F} f.

Section Driver.
Context `{Ext : Externals} {V : Type} `{Oracle : ShapeOracle V} {F : Type}.

(** The graph of the model and the root of the new module: the model itself
    for a [GraphModule], else what the tracer gives ([tracer.trace(model)],
    [tracer.root]). *)
Definition graph_and_root (model : Model F) (tracer : F -> Result (F * Graph))
  : Result (Model F * Graph) :=
  match model with
  | GraphModule _ graph => Ok (model, graph)
  | Plain f => '(root, graph) ← tracer f; Ok (Plain root, graph)
  end.

Definition optimize_einsums (model : Model F) (example_inputs : list V)
    (tracer : F -> Result (F * Graph)) : M (Model F) :=
  '(root, graph) ← lift (graph_and_root model tracer);
  annotated ← lift (shape_prop graph example_inputs);
  new ← optimize_einsums_graph annotated;
  mret (GraphModule root new).

End Driver.

(** What is assumed of [ShapeProp]: it only sets shape attributes, and the
    shapes it sets are those of the values of the run on the inputs. *)
Class ShapeOracleLaws {V : Type} `{Sem : Semantics V} `{Oracle : ShapeOracle V}
  : Prop := {
  shape_prop_only_shapes : forall g inputs g',
    shape_prop g inputs = Ok g' -> without_shape <$> g' = without_shape <$> g;
  shape_prop_shapes_match : forall g inputs g',
    shape_prop g inputs = Ok g' -> shapes_match g' inputs = true;
}.

(** A sample [ShapeProp] for the sample values: the graph is run, and every
    node gets the shape of a tensor of dimension zero. *)
Module SampleOracle.

Definition scalar_shape (n : Node) : Node :=
  {| name := name n; op := op n; target := target n; args := args n;
     kwargs := kwargs n; type := type n; shape := Some [] |}.

Definition scalar_shape_prop (g : Graph) (inputs : list Z) : Result Graph :=
  _ ← execute (Sem := Sample.scalars) g inputs;
  Ok (scalar_shape <$> g).

Definition oracle : ShapeOracle Z := {| shape_prop := scalar_shape_prop |}.

End SampleOracle.

(** * Properties *)

(** ** The monads *)

Lemma rbind_ok {A B} (m : Result A) (f : A -> Result B) b :
  m ≫= f = Ok b -> exists a, m = Ok a /\ f a = Ok b.
Proof. destruct m as [a|e]; [eauto | discriminate]. Qed.

Lemma mbind_lift {A B} (r : Result A) (f : A -> M B) :
  lift r ≫= f = match r with Ok a => f a | Raise e => ([], Raise e) end.
Proof. destruct r as [a|e]; cbn; [destruct (f a) |]; reflexivity. Qed.

Lemma mbind_ok {A B} (m : M A) (f : A -> M B) w b :
  m ≫= f = (w, Ok b) ->
  exists w1 a w2, m = (w1, Ok a) /\ f a = (w2, Ok b) /\ w = w1 ++ w2.
Proof.
  destruct m as [w1 [a|e]]; cbn; [|discriminate].
  destruct (f a) as [w2 r] eqn:Hf. intros [= <- ->]. eauto 6.
Qed.

Lemma mbind_assoc {A B C} (m : M A) (f : A -> M B) (g : B -> M C) :
  (m ≫= f) ≫= g = m ≫= (fun a => f a ≫= g).
Proof.
  destruct m as [w [a|e]]; cbn; [|reflexivity].
  destruct (f a) as [w1 [b|e1]]; cbn; [|reflexivity].
  destruct (g b) as [w2 r]. by rewrite (assoc_L (++)).
Qed.

Lemma mbind_mret {A B} (a : A) (f : A -> M B) : mret a ≫= f = f a.
Proof. cbn. by destruct (f a). Qed.

Lemma mapR_ext {A B} (f g : A -> Result B) l :
  (forall x, x ∈ l -> f x = g x) -> mapR f l = mapR g l.
Proof.
  induction l as [|x t IH]; intros Hfg; cbn; [reflexivity|].
  rewrite (Hfg x) by constructor.
  rewrite IH; [reflexivity|]. intros y Hy. apply Hfg. by constructor.
Qed.

(** ** Induction on arguments *)

Section ArgumentInd.
Context {R : Type} (P : Argument R -> Prop).
Hypothesis HNode : forall r, P (ANode r).
Hypothesis HLit : forall l, P (ALit l).
Hypothesis HTuple : forall xs, Forall P xs -> P (ATuple xs).
Hypothesis HList : forall xs, Forall P xs -> P (AList xs).
Hypothesis HDict : forall kvs, Forall (fun kv => P (snd kv)) kvs -> P (ADict kvs).
Hypothesis HSlice : forall a b c, P a -> P b -> P c -> P (ASlice a b c).

Fixpoint Argument_nested_ind (a : Argument R) : P a :=
  match a with
  | ANode r => HNode r
  | ALit l => HLit l
  | ATuple xs =>
      HTuple xs ((fix go l : Forall P l :=
        match l with
        | [] => Forall_nil_2 P
        | x :: t => Forall_cons_2 P x t (Argument_nested_ind x) (go t)
        end) xs)
  | AList xs =>
      HList xs ((fix go l : Forall P l :=
        match l with
        | [] => Forall_nil_2 P
        | x :: t => Forall_cons_2 P x t (Argument_nested_ind x) (go t)
        end) xs)
  | ADict kvs =>
      HDict kvs ((fix go l : Forall (fun kv => P (snd kv)) l :=
        match l with
        | [] => Forall_nil_2 _
        | kv :: t =>
            Forall_cons_2 (fun kv => P (snd kv)) kv t
              (Argument_nested_ind (snd kv)) (go t)
        end) kvs)
  | ASlice a b c =>
      HSlice a b c (Argument_nested_ind a) (Argument_nested_ind b)
        (Argument_nested_ind c)
  end.
End ArgumentInd.

(** ** One iteration of the loop *)

Section Steps.
Context `{Ext : Externals}.

Lemma copy_node_copied st node : copy_node st node = ([], copied st node).
Proof.
  unfold copy_node, copied. rewrite mbind_lift.
  destruct (node_copy _ _ _) as [[g r]|e]; reflexivity.
Qed.

(** An einsum call whose operands all have a shape is expanded, silently. *)
Lemma process_node_expand graph st node shapes :
  is_einsum node = true ->
  get_shapes graph node = Some shapes ->
  process_node graph st node = ([], expand_einsum st node shapes).
Proof.
  intros He Hs. unfold process_node, optimize_einsum, expand_einsum.
  rewrite He, Hs.
  destruct (first_arg node) as [einstr|e]; cbn; [|reflexivity].
  destruct (contract_path einstr shapes) as [cl|e]; cbn; [|reflexivity].
  destruct (mapR _ (args node)) as [pa|e]; cbn; [|reflexivity].
  destruct (core_contract _ _ _) as [[g r]|e]; reflexivity.
Qed.

(** An einsum call with an operand that has no shape is copied, after one
    warning. *)
Lemma process_node_fallback graph st node :
  is_einsum node = true ->
  get_shapes graph node = None ->
  process_node graph st node = ([lacked_shape_warning node], copied st node).
Proof.
  intros He Hs. unfold process_node, optimize_einsum. rewrite He, Hs.
  change (warn (lacked_shape_warning node) ≫= (fun _ => mret None) ≫= _)
    with (([lacked_shape_warning node], Ok None) ≫=
          (fun handled : option State =>
             match handled with Some st' => mret st' | None => copy_node st node end)).
  cbn [mbind M_bind]. rewrite copy_node_copied. reflexivity.
Qed.

(** Any other node is copied, silently. *)
Lemma process_node_ordinary graph st node :
  is_einsum node = false ->
  process_node graph st node = ([], copied st node).
Proof.
  intros He. unfold process_node, optimize_einsum. rewrite He.
  rewrite mbind_mret. apply copy_node_copied.
Qed.

Lemma process_nodes_app graph l1 l2 st :
  process_nodes graph (l1 ++ l2) st =
  process_nodes graph l1 st ≫= process_nodes graph l2.
Proof.
  revert st. induction l1 as [|n l1 IH]; intros st; cbn [process_nodes app].
  - by rewrite mbind_mret.
  - rewrite mbind_assoc.
    destruct (process_node graph st n) as [w [st'|e]]; [|reflexivity].
    cbn [mbind M_bind]. by rewrite IH.
Qed.

End Steps.

(** ** Failures of the collaborators *)

Section Errors.
Context `{Ext : Externals}.

Lemma raises_expand_einsum st node shapes e :
  optimizer_raises node shapes e \/ expander_raises st node shapes e ->
  expand_einsum st node shapes = Raise e.
Proof.
  unfold expand_einsum.
  intros [(einstr & -> & Hp) | (einstr & cl & pa & -> & Hp & Hpa & Hc)]; cbn.
  - by rewrite Hp.
  - rewrite Hp. cbn. rewrite Hpa. cbn. by rewrite Hc.
Qed.

(** A failure of one iteration is the failure of the pass: the warnings
    are those emitted so far, and there is no graph. *)
Lemma step_error_propagates pre node post st w w' e :
  let graph := pre ++ node :: post in
  process_nodes graph pre initial_state = (w, Ok st) ->
  process_node graph st node = (w', Raise e) ->
  optimize_einsums_graph graph = (w ++ w', Raise e).
Proof.
  intros graph Hpre Hstep. unfold optimize_einsums_graph.
  unfold graph at 2. rewrite process_nodes_app. fold graph. rewrite Hpre.
  cbn [mbind M_bind process_nodes]. rewrite Hstep. reflexivity.
Qed.

(** C7. When the path optimizer or the contraction expander raises on an
    einsum call whose operands all have a shape, the pass raises that very
    error: nothing after the call is processed (the warnings are those
    emitted before it) and no graph is returned. *)
Theorem collaborator_error_propagates pre node post st w shapes e :
  let graph := pre ++ node :: post in
  process_nodes graph pre initial_state = (w, Ok st) ->
  is_einsum node = true ->
  get_shapes graph node = Some shapes ->
  optimizer_raises node shapes e \/ expander_raises st node shapes e ->
  optimize_einsums_graph graph = (w, Raise e).
Proof.
  intros graph Hpre He Hs Hr.
  rewrite <- (app_nil_r w).
  apply step_error_propagates with (st := st); [exact Hpre|].
  rewrite (process_node_expand _ _ _ shapes He Hs).
  by rewrite (raises_expand_einsum _ _ _ _ Hr).
Qed.

End Errors.

Lemma collaborator_error_propagates_witness :
  optimize_einsums_graph (Ext := Sample.externals) Tests.malformed =
  ([], Raise (External
     "Number of einsum subscripts must be equal to the number of operands.")).
Proof.
  refine (collaborator_error_propagates (Ext := Sample.externals)
    (take 2 Tests.malformed)
    (Tests.mk "einsum_1" call_function Tests.einsum
       [ALit (LStr "ij,jk,kl->il"); ANode "x"; ANode "y"] (Some [3; 5]))
    (drop 3 Tests.malformed)
    {| new_graph := take 2 (Tests.unshaped Tests.malformed);
       env := <["y" := "y"]> (<["x" := "x"]> ∅) |}
    [] [[3; 4]; [4; 5]] _ _ _ _ _).
  - vm_compute. reflexivity.
  - vm_compute. reflexivity.
  - vm_compute. reflexivity.
  - left. eexists. split; vm_compute; reflexivity.
Defined.

(** ** Einsum calls: keyword arguments, missing shapes *)

Section EinsumCalls.
Context `{Ext : Externals}.

(** The pass reads the input graph only for the shapes of operands. *)
Lemma process_node_shapes_ext graph graph' st node :
  (forall k, find_node graph k ≫= shape = find_node graph' k ≫= shape) ->
  process_node graph st node = process_node graph' st node.
Proof.
  intros Hsh. unfold process_node, optimize_einsum.
  assert (get_shapes graph node = get_shapes graph' node) as ->; [|reflexivity].
  unfold get_shapes. apply mapM_ext. intros [k| | | | |]; cbn; auto.
Qed.

Lemma process_nodes_shapes_ext graph graph' nodes st :
  (forall k, find_node graph k ≫= shape = find_node graph' k ≫= shape) ->
  process_nodes graph nodes st = process_nodes graph' nodes st.
Proof.
  intros Hsh. revert st. induction nodes as [|n nodes IH]; intros st; [reflexivity|].
  cbn [process_nodes]. rewrite (process_node_shapes_ext graph graph') by exact Hsh.
  destruct (process_node graph' st n) as [w [st'|e]]; [|reflexivity].
  cbn [mbind M_bind]. by rewrite IH.
Qed.

Lemma find_node_with_kwargs pre node post kw k :
  find_node (pre ++ with_kwargs kw node :: post) k ≫= shape =
  find_node (pre ++ node :: post) k ≫= shape.
Proof.
  unfold find_node. induction pre as [|n pre IH]; cbn.
  - destruct (bool_decide (name node = k)); reflexivity.
  - destruct (bool_decide (name n = k)); [reflexivity | exact IH].
Qed.

Lemma process_nodes_with_kwargs graph pre node post shapes kw st :
  is_einsum node = true ->
  get_shapes graph node = Some shapes ->
  process_nodes graph (pre ++ with_kwargs kw node :: post) st =
  process_nodes graph (pre ++ node :: post) st.
Proof.
  intros He Hs. rewrite !process_nodes_app.
  destruct (process_nodes graph pre st) as [w [st'|e]]; [|reflexivity].
  cbn [mbind M_bind process_nodes].
  rewrite (process_node_expand graph st' (with_kwargs kw node) shapes);
    [|exact He|exact Hs].
  rewrite (process_node_expand graph st' node shapes He Hs).
  reflexivity.
Qed.

(** C10. The expansion of an einsum call whose operands all have a shape is
    made from the positional arguments alone: whatever keyword arguments
    the call carries, the pass gives the same warnings and the same output
    graph, so that none of them is in it. *)
Theorem einsum_kwargs_discarded pre node post shapes kw :
  is_einsum node = true ->
  get_shapes (pre ++ node :: post) node = Some shapes ->
  optimize_einsums_graph (pre ++ with_kwargs kw node :: post) =
  optimize_einsums_graph (pre ++ node :: post).
Proof.
  intros He Hs. unfold optimize_einsums_graph.
  rewrite (process_nodes_shapes_ext (pre ++ with_kwargs kw node :: post)
             (pre ++ node :: post))
    by (intros k; apply find_node_with_kwargs).
  by rewrite (process_nodes_with_kwargs _ _ _ _ shapes kw _ He Hs).
Qed.

(** C3. An einsum call with an operand that has no shape makes the pass
    emit exactly one warning, the one about shape propagation, and is then
    handled as any other node: it is copied, with the same opcode, target
    and type, and its arguments taken through [env]. *)
Theorem missing_shape_warns_and_copies graph st node a :
  is_einsum node = true ->
  a ∈ tail (args node) ->
  arg_shape graph a = None ->
  warnings (process_node graph st node) = [lacked_shape_warning node]
  /\ outcome (process_node graph st node) = copied st node
  /\ forall args' kwargs',
      map_args (env_lookup (env st)) (args node) = Ok args' ->
      map_kwargs (env_lookup (env st)) (kwargs node) = Ok kwargs' ->
      let nm := create_name (names (new_graph st)) (name node) in
      outcome (process_node graph st node) =
      Ok {| new_graph := new_graph st ++
              [{| name := nm; op := op node; target := target node;
                  args := args'; kwargs := kwargs'; type := type node;
                  shape := None |}];
            env := <[name node := nm]> (env st) |}.
Proof.
  intros He Ha Hnone.
  assert (get_shapes graph node = None) as Hs.
  { unfold get_shapes. apply eq_None_not_Some. rewrite mapM_is_Some.
    rewrite Forall_forall. intros Hall. specialize (Hall a Ha).
    cbn in Hall. rewrite Hnone in Hall. by destruct Hall. }
  rewrite (process_node_fallback graph st node He Hs).
  split; [reflexivity|]. split; [reflexivity|].
  intros args' kwargs' Hargs Hkw nm. cbn [outcome snd].
  unfold copied, node_copy. rewrite Hargs. cbn. rewrite Hkw. reflexivity.
Qed.

End EinsumCalls.

Lemma einsum_kwargs_discarded_witness :
  optimize_einsums_graph (Ext := Sample.externals)
    (take 2 Tests.fusable_shaped ++
     with_kwargs [("out", ANode "x")]
       (Tests.mk "einsum_1" call_function Tests.einsum
          [ALit (LStr "ij,jk->ik"); ANode "x"; ANode "y"] (Some [3; 5]))
     :: drop 3 Tests.fusable_shaped) =
  optimize_einsums_graph (Ext := Sample.externals) Tests.fusable_shaped.
Proof.
  refine (einsum_kwargs_discarded (Ext := Sample.externals)
    (take 2 Tests.fusable_shaped)
    (Tests.mk "einsum_1" call_function Tests.einsum
       [ALit (LStr "ij,jk->ik"); ANode "x"; ANode "y"] (Some [3; 5]))
    (drop 3 Tests.fusable_shaped) [[3; 4]; [4; 5]] [("out", ANode "x")] _ _).
  - vm_compute. reflexivity.
  - vm_compute. reflexivity.
Defined.

Lemma missing_shape_warns_and_copies_witness :
  warnings (process_node (Ext := Sample.externals) Tests.fusable
     {| new_graph := take 2 Tests.fusable; env := <["y" := "y"]> (<["x" := "x"]> ∅) |}
     (Tests.mk "einsum_1" call_function Tests.einsum
        [ALit (LStr "ij,jk->ik"); ANode "x"; ANode "y"] None))
  = [lacked_shape_warning
       (Tests.mk "einsum_1" call_function Tests.einsum
          [ALit (LStr "ij,jk->ik"); ANode "x"; ANode "y"] None)].
Proof.
  refine (proj1 (missing_shape_warns_and_copies (Ext := Sample.externals)
    Tests.fusable _ _ (ANode "x") _ _ _)).
  - vm_compute. reflexivity.
  - cbn. apply list_elem_of_here.
  - vm_compute. reflexivity.
Defined.

(** ** lint *)

Lemma mapR_check_arg_ok seen refs :
  (exists u, mapR (check_arg seen) refs = Ok u) <-> Forall (fun r => r ∈ seen) refs.
Proof.
  induction refs as [|r refs IH].
  - split; [constructor | cbn; eauto].
  - rewrite Forall_cons.
    change (mapR (check_arg seen) (r :: refs))
      with (check_arg seen r ≫= fun y =>
            mapR (check_arg seen) refs ≫= fun t' => Ok (y :: t')).
    assert (check_arg seen r =
            if bool_decide (r ∈ seen) then Ok tt
            else Raise (RuntimeError "Argument was used before it has been defined"))
      as -> by reflexivity.
    destruct (bool_decide (r ∈ seen)) eqn:Hr.
    + apply bool_decide_eq_true in Hr.
      destruct (mapR (check_arg seen) refs) as [u|e]; cbn.
      * split.
        -- intros _. split; [exact Hr|]. apply IH. eauto.
        -- intros _. eexists. reflexivity.
      * split.
        -- intros [? [=]].
        -- intros [_ H]. apply IH in H as [? [=]].
    + apply bool_decide_eq_false in Hr. cbn.
      split; [intros [? [=]] | tauto].
Qed.

Lemma lint_from_cons seen n g :
  lint_from seen (n :: g) = Ok tt <->
  Forall (fun r => r ∈ seen) (node_refs n)
  /\ (name n ∉ seen)
  /\ lint_from (name n :: seen) g = Ok tt.
Proof.
  cbn [lint_from]. rewrite <- mapR_check_arg_ok.
  destruct (mapR (check_arg seen) (node_refs n)) as [u|e]; cbn.
  - destruct (bool_decide (name n ∈ seen)) eqn:Hn.
    + apply bool_decide_eq_true in Hn. split; [discriminate|].
      intros (_ & ? & _). contradiction.
    + apply bool_decide_eq_false in Hn. split; [eauto | tauto].
  - split; [discriminate | intros [[? [=]] _]].
Qed.

Lemma lint_from_snoc seen g n :
  lint_from seen g = Ok tt ->
  Forall (fun r => r ∈ seen \/ r ∈ names g) (node_refs n) ->
  name n ∉ seen -> name n ∉ names g ->
  lint_from seen (g ++ [n]) = Ok tt.
Proof.
  revert seen. induction g as [|m g IH]; intros seen Hg Hrefs Hs Hn.
  - cbn [app]. apply lint_from_cons. split; [|split; [exact Hs | reflexivity]].
    eapply Forall_impl; [exact Hrefs|]. cbn. intros r [?|Hr]; [done|].
    by apply elem_of_nil in Hr.
  - apply lint_from_cons in Hg as (Hm & Hms & Hg).
    cbn [app]. apply lint_from_cons. split; [exact Hm|]. split; [exact Hms|].
    unfold names in *. rewrite fmap_cons in Hn. apply not_elem_of_cons in Hn as [Hne Hn].
    apply IH; [exact Hg| |by apply not_elem_of_cons|exact Hn].
    eapply Forall_impl; [exact Hrefs|]. cbn. intros r [?|Hr].
    + left. by apply elem_of_cons; right.
    + apply elem_of_cons in Hr as [->|Hr]; [left; apply elem_of_cons; by left | by right].
Qed.

Lemma lint_snoc g n :
  lint g = Ok tt ->
  Forall (fun r => r ∈ names g) (node_refs n) ->
  name n ∉ names g ->
  lint (g ++ [n]) = Ok tt.
Proof.
  intros Hg Hrefs Hn. apply lint_from_snoc; [exact Hg| |apply not_elem_of_nil|exact Hn].
  eapply Forall_impl; [exact Hrefs|]. cbn. auto.
Qed.

(** ** The references of mapped arguments *)

Lemma mapR_Forall2 {A B} (f : A -> Result B) l l' :
  mapR f l = Ok l' <-> Forall2 (fun x y => f x = Ok y) l l'.
Proof.
  revert l'. induction l as [|x t IH]; intros l'; cbn.
  - split; [intros [= <-]; constructor | intros ->%Forall2_nil_inv_l; reflexivity].
  - split.
    + intros H. apply rbind_ok in H as (y & Hy & H).
      apply rbind_ok in H as (t' & Ht & [= <-]).
      constructor; [exact Hy | by apply IH].
    + intros (y & t' & Hy & Ht & ->)%Forall2_cons_inv_l.
      rewrite Hy. cbn. apply IH in Ht. by rewrite Ht.
Qed.

Lemma map_arg_refs (e : gmap string string) a a' r :
  map_arg (env_lookup e) a = Ok a' ->
  r ∈ arg_refs a' ->
  exists k, k ∈ arg_refs a /\ e !! k = Some r.
Proof.
  revert a'. induction a as [k|l|xs IH|xs IH|kvs IH|a1 a2 a3 IH1 IH2 IH3]
    using Argument_nested_ind; intros a'; cbn.
  - unfold env_lookup. destruct (e !! k) as [r'|] eqn:Hk; cbn; [|discriminate].
    intros [= <-]. cbn. intros ->%list_elem_of_singleton.
    exists k. split; [apply list_elem_of_here | exact Hk].
  - intros [= <-]. cbn. by intros ?%elem_of_nil.
  - intros H. apply rbind_ok in H as (xs' & Hxs & [= <-]). cbn.
    apply mapR_Forall2 in Hxs. revert IH. induction Hxs as [|x x' xs xs' Hx Hxs IHxs];
      intros IH; cbn; [by intros ?%elem_of_nil|].
    apply Forall_cons in IH as [IHx IH]. intros [Hr|Hr]%elem_of_app.
    + destruct (IHx _ Hx Hr) as (k & ? & ?). exists k. split; [apply elem_of_app; by left|done].
    + destruct (IHxs IH Hr) as (k & ? & ?). exists k. split; [apply elem_of_app; by right|done].
  - intros H. apply rbind_ok in H as (xs' & Hxs & [= <-]). cbn.
    apply mapR_Forall2 in Hxs. revert IH. induction Hxs as [|x x' xs xs' Hx Hxs IHxs];
      intros IH; cbn; [by intros ?%elem_of_nil|].
    apply Forall_cons in IH as [IHx IH]. intros [Hr|Hr]%elem_of_app.
    + destruct (IHx _ Hx Hr) as (k & ? & ?). exists k. split; [apply elem_of_app; by left|done].
    + destruct (IHxs IH Hr) as (k & ? & ?). exists k. split; [apply elem_of_app; by right|done].
  - intros H. apply rbind_ok in H as (kvs' & Hkvs & [= <-]). cbn.
    apply mapR_Forall2 in Hkvs. revert IH.
    induction Hkvs as [|[k v] [k' v'] kvs kvs' Hkv Hkvs IHkvs];
      intros IH; cbn; [by intros ?%elem_of_nil|].
    apply Forall_cons in IH as [IHv IH]. cbn in IHv.
    apply rbind_ok in Hkv as (v'' & Hv & [= <- <-]).
    intros [Hr|Hr]%elem_of_app.
    + destruct (IHv _ Hv Hr) as (k0 & ? & ?). exists k0. split; [apply elem_of_app; by left|done].
    + destruct (IHkvs IH Hr) as (k0 & ? & ?). exists k0. split; [apply elem_of_app; by right|done].
  - intros H. apply rbind_ok in H as (a1' & H1 & H).
    apply rbind_ok in H as (a2' & H2 & H). apply rbind_ok in H as (a3' & H3 & [= <-]).
    cbn. rewrite !elem_of_app. intros [Hr|[Hr|Hr]].
    + destruct (IH1 _ H1 Hr) as (k & ? & ?). exists k. rewrite !elem_of_app. auto.
    + destruct (IH2 _ H2 Hr) as (k & ? & ?). exists k. rewrite !elem_of_app. auto.
    + destruct (IH3 _ H3 Hr) as (k & ? & ?). exists k. rewrite !elem_of_app. auto.
Qed.

(** ** What one iteration does to the state *)

Section StepInversion.
Context `{Ext : Externals}.

Lemma copied_ok st node st' :
  copied st node = Ok st' ->
  exists node',
    copy_of (env st) node node'
    /\ name node' = create_name (names (new_graph st)) (name node)
    /\ new_graph st' = new_graph st ++ [node']
    /\ env st' = <[name node := name node']> (env st).
Proof.
  unfold copied, node_copy. intros H.
  apply rbind_ok in H as ([g r] & H & [= <-]).
  apply rbind_ok in H as (a & Ha & H). apply rbind_ok in H as (kw & Hkw & [= <- <-]).
  exists {| name := create_name (names (new_graph st)) (name node); op := op node;
            target := target node; args := a; kwargs := kw; type := type node;
            shape := None |}.
  split; [|split; [|split]]; [|reflexivity..].
  repeat split; assumption.
Qed.

Lemma expand_einsum_ok st node shapes st' :
  expand_einsum st node shapes = Ok st' ->
  exists einstr cl proxy_args r,
    first_arg node = Ok einstr
    /\ contract_path einstr shapes = Ok cl
    /\ mapR (proxy_arg (env st)) (args node) = Ok proxy_args
    /\ core_contract (tail proxy_args) cl (new_graph st) = Ok (new_graph st', r)
    /\ env st' = <[name node := r]> (env st).
Proof.
  unfold expand_einsum. intros H.
  apply rbind_ok in H as (einstr & He & H). apply rbind_ok in H as (cl & Hcl & H).
  apply rbind_ok in H as (pa & Hpa & H). apply rbind_ok in H as ([g r] & Hc & [= <-]).
  exists einstr, cl, pa, r. cbn. auto.
Qed.

(** The three cases of an iteration that does not fail. *)
Lemma process_node_ok graph st node w st' :
  process_node graph st node = (w, Ok st') ->
  (is_einsum node = true /\ w = []
   /\ exists shapes, get_shapes graph node = Some shapes
                     /\ expand_einsum st node shapes = Ok st')
  \/ (is_einsum node = true /\ w = [lacked_shape_warning node]
      /\ get_shapes graph node = None /\ copied st node = Ok st')
  \/ (is_einsum node = false /\ w = [] /\ copied st node = Ok st').
Proof.
  destruct (is_einsum node) eqn:He.
  - destruct (get_shapes graph node) as [shapes|] eqn:Hs.
    + rewrite (process_node_expand _ _ _ shapes He Hs). intros [= <- H]. left. eauto.
    + rewrite (process_node_fallback _ _ _ He Hs). intros [= <- H]. right. left. auto.
  - rewrite (process_node_ordinary _ _ _ He). intros [= <- H]. right. right. auto.
Qed.

(** The proxies of an expanded call are nodes that [env] maps to. *)
Lemma proxy_args_refs e l l' a r :
  mapR (proxy_arg e) l = Ok l' ->
  Forall (fun x => exists k, x = ANode k) l ->
  a ∈ l' -> r ∈ arg_refs a ->
  exists k, e !! k = Some r.
Proof.
  intros Hm%mapR_Forall2 Hl Ha Hr.
  induction Hm as [|x x' l l' Hx Hm IH]; [by apply elem_of_nil in Ha|].
  apply Forall_cons in Hl as [[k ->] Hl].
  apply elem_of_cons in Ha as [->|Ha]; [|by apply IH].
  cbn in Hx. unfold env_lookup in Hx. destruct (e !! k) as [r'|] eqn:Hk; [|discriminate].
  injection Hx as <-. cbn in Hr. apply list_elem_of_singleton in Hr as ->. eauto.
Qed.

Lemma proxy_args_tail e l l' :
  mapR (proxy_arg e) l = Ok l' -> mapR (proxy_arg e) (tail l) = Ok (tail l').
Proof.
  destruct l as [|x l]; cbn; [by intros [= <-]|].
  intros H. apply rbind_ok in H as (y & _ & H).
  apply rbind_ok in H as (t' & Ht & [= <-]). exact Ht.
Qed.

(** Operands that all have a shape are all nodes. *)
Lemma get_shapes_nodes graph node shapes :
  get_shapes graph node = Some shapes ->
  Forall (fun x => exists k, x = ANode k) (tail (args node)).
Proof.
  unfold get_shapes. intros H. assert (Hs : is_Some (mapM (arg_shape graph) (tail (args node))))
    by (rewrite H; eauto).
  apply mapM_is_Some in Hs. eapply Forall_impl; [exact Hs|].
  intros [k| | | | |]; cbn; intros [s Hx]; try discriminate. eauto.
Qed.

End StepInversion.

(** ** The new graph grows, and stays consistent *)

Lemma names_app g1 g2 : names (g1 ++ g2) = names g1 ++ names g2.
Proof. unfold names. apply fmap_app. Qed.

Lemma map_args_refs (e : gmap string string) l l' r :
  map_args (env_lookup e) l = Ok l' ->
  r ∈ concat (map arg_refs l') ->
  exists k, k ∈ concat (map arg_refs l) /\ e !! k = Some r.
Proof.
  unfold map_args. intros Hm%mapR_Forall2.
  induction Hm as [|x x' l l' Hx Hm IH]; cbn; [by intros ?%elem_of_nil|].
  intros [Hr|Hr]%elem_of_app.
  - destruct (map_arg_refs _ _ _ _ Hx Hr) as (k & ? & ?).
    exists k. split; [apply elem_of_app; by left | done].
  - destruct (IH Hr) as (k & ? & ?). exists k. split; [apply elem_of_app; by right | done].
Qed.

Lemma map_kwargs_refs (e : gmap string string) l l' r :
  map_kwargs (env_lookup e) l = Ok l' ->
  r ∈ concat (map (fun kv => arg_refs (snd kv)) l') ->
  exists k, k ∈ concat (map (fun kv => arg_refs (snd kv)) l) /\ e !! k = Some r.
Proof.
  unfold map_kwargs. intros Hm%mapR_Forall2.
  induction Hm as [|[k v] [k' v'] l l' Hx Hm IH]; cbn; [by intros ?%elem_of_nil|].
  apply rbind_ok in Hx as (v'' & Hv & [= <- <-]).
  intros [Hr|Hr]%elem_of_app.
  - destruct (map_arg_refs _ _ _ _ Hv Hr) as (k0 & ? & ?).
    exists k0. split; [apply elem_of_app; by left | done].
  - destruct (IH Hr) as (k0 & ? & ?). exists k0. split; [apply elem_of_app; by right | done].
Qed.

Lemma copy_of_refs e node node' r :
  copy_of e node node' ->
  r ∈ node_refs node' ->
  exists k, k ∈ node_refs node /\ e !! k = Some r.
Proof.
  intros (_ & _ & _ & Ha & Hkw & _). unfold node_refs.
  intros [Hr|Hr]%elem_of_app.
  - destruct (map_args_refs _ _ _ _ Ha Hr) as (k & ? & ?).
    exists k. split; [apply elem_of_app; by left | done].
  - destruct (map_kwargs_refs _ _ _ _ Hkw Hr) as (k & ? & ?).
    exists k. split; [apply elem_of_app; by right | done].
Qed.

Section Structure.
Context `{Laws : ExternalLaws}.

(** The operands handed to the expander are nodes of the new graph. *)
Lemma operands_in_graph graph st node shapes proxy_args :
  consistent st ->
  get_shapes graph node = Some shapes ->
  mapR (proxy_arg (env st)) (args node) = Ok proxy_args ->
  forall a k, a ∈ tail proxy_args -> k ∈ arg_refs a -> k ∈ names (new_graph st).
Proof.
  intros [_ Henv] Hs Hpa a k Ha Hk.
  destruct (proxy_args_refs (env st) (tail (args node)) (tail proxy_args) a k)
    as (k0 & Hk0); [by apply proxy_args_tail|by eapply get_shapes_nodes|done|done|].
  by eapply Henv.
Qed.

Lemma process_node_appends graph st node w st' :
  process_node graph st node = (w, Ok st') ->
  exists added r,
    new_graph st' = new_graph st ++ added
    /\ segment_of node added
    /\ env st' = <[name node := r]> (env st).
Proof.
  intros [(He & _ & shapes & Hs & H) | [(He & _ & _ & H) | (He & _ & H)]]%process_node_ok.
  - apply expand_einsum_ok in H as (einstr & cl & pa & r & _ & _ & _ & Hc & Henv).
    destruct (core_contract_appends _ _ _ _ _ Hc) as [added Hadd].
    exists added, r. split; [exact Hadd|]. split; [|exact Henv].
    intros Hne. congruence.
  - apply copied_ok in H as (node' & Hcopy & _ & Hg & Henv).
    exists [node'], (name node'). split; [exact Hg|]. split; [|exact Henv].
    intros _. eauto.
  - apply copied_ok in H as (node' & Hcopy & _ & Hg & Henv).
    exists [node'], (name node'). split; [exact Hg|]. split; [|exact Henv].
    intros _. eauto.
Qed.

Lemma copied_consistent st node st' :
  consistent st -> copied st node = Ok st' -> consistent st'.
Proof.
  intros [Hlint Henv] (node' & Hcopy & Hname & Hg & He)%copied_ok.
  assert (Hfresh : name node' ∉ names (new_graph st))
    by (rewrite Hname; apply create_name_fresh).
  split.
  - rewrite Hg. apply lint_snoc; [exact Hlint| |exact Hfresh].
    apply Forall_forall. intros r Hr.
    destruct (copy_of_refs _ _ _ _ Hcopy Hr) as (k & _ & Hk). by eapply Henv.
  - intros k r. rewrite He, Hg, names_app. intros Hk.
    apply lookup_insert_Some in Hk as [[_ <-] | [_ Hk]].
    + apply elem_of_app. right. cbn. apply list_elem_of_here.
    + apply elem_of_app. left. by eapply Henv.
Qed.

Lemma expand_einsum_consistent graph st node shapes st' :
  consistent st ->
  get_shapes graph node = Some shapes ->
  expand_einsum st node shapes = Ok st' ->
  consistent st'.
Proof.
  intros Hc Hs (einstr & cl & pa & r & _ & _ & Hpa & Hcc & He)%expand_einsum_ok.
  pose proof (operands_in_graph _ _ _ _ _ Hc Hs Hpa) as Hops.
  destruct Hc as [Hlint Henv].
  destruct (core_contract_appends _ _ _ _ _ Hcc) as [added Hadd].
  split.
  - by eapply core_contract_lint.
  - intros k r'. rewrite He. intros Hk.
    apply lookup_insert_Some in Hk as [[_ <-] | [_ Hk]].
    + by eapply core_contract_result.
    + rewrite Hadd, names_app. apply elem_of_app. left. by eapply Henv.
Qed.

Lemma process_node_consistent graph st node w st' :
  consistent st -> process_node graph st node = (w, Ok st') -> consistent st'.
Proof.
  intros Hc [(_ & _ & shapes & Hs & H) | [(_ & _ & _ & H) | (_ & _ & H)]]%process_node_ok.
  - by eapply expand_einsum_consistent.
  - by eapply copied_consistent.
  - by eapply copied_consistent.
Qed.

Lemma process_nodes_consistent graph nodes st w st' :
  consistent st -> process_nodes graph nodes st = (w, Ok st') -> consistent st'.
Proof.
  revert st w. induction nodes as [|n nodes IH]; intros st w Hc; cbn [process_nodes].
  - by intros [= _ <-].
  - intros (w1 & st1 & w2 & H1 & H2 & _)%mbind_ok.
    eapply IH; [|exact H2]. by eapply process_node_consistent.
Qed.

Lemma initial_state_consistent : consistent initial_state.
Proof. split; [reflexivity|]. intros k r. cbn. by rewrite lookup_empty. Qed.

(** The new graph after a run of the loop: what was there, followed by one
    segment for each node processed, in order. *)
Lemma process_nodes_segments graph nodes st w st' :
  process_nodes graph nodes st = (w, Ok st') ->
  exists segments,
    new_graph st' = new_graph st ++ concat segments
    /\ Forall2 segment_of nodes segments.
Proof.
  revert st w. induction nodes as [|n nodes IH]; intros st w; cbn [process_nodes].
  - intros [= _ <-]. exists []. split; [by rewrite app_nil_r | constructor].
  - intros (w1 & st1 & w2 & H1 & H2 & _)%mbind_ok.
    destruct (process_node_appends _ _ _ _ _ H1) as (added & r & Hg & Hseg & _).
    destruct (IH _ _ H2) as (segments & Hg' & Hsegs).
    exists (added :: segments). split; [|by constructor].
    rewrite Hg', Hg. cbn. by rewrite (assoc_L (++)).
Qed.

End Structure.

(** ** The sample collaborators keep the laws *)

Lemma unique_name_fresh used c : Sample.unique_name used c ∉ used.
Proof.
  unfold Sample.unique_name. intros Hin.
  apply (fresh_string_of_set_fresh (list_to_set used) c).
  by apply elem_of_list_to_set.
Qed.

Lemma unique_name_free used c : c ∉ used -> Sample.unique_name used c = c.
Proof.
  intros Hc. unfold Sample.unique_name, fresh_string_of_set, fresh_string.
  assert (mapset.mapset_car (list_to_set (C := stringset) used) !! c = None) as ->;
    [|reflexivity].
  apply eq_None_not_Some. intros Hs. apply Hc.
  apply (elem_of_list_to_set (C := stringset)).
  destruct Hs as [[] Hs]. exact Hs.
Qed.

Lemma einsum_node_refs nm equation operands :
  node_refs (Sample.einsum_node nm equation operands) = concat (map arg_refs operands).
Proof. unfold node_refs. cbn. by rewrite !app_nil_r. Qed.

Lemma sample_expand_appends operands cl g g' r :
  Sample.expand operands cl g = Ok (g', r) -> exists added, g' = g ++ added.
Proof.
  revert operands g. induction cl as [|equation cl IH]; intros operands g; cbn.
  - destruct operands as [|[k| | | | |] ?]; try discriminate.
    intros [= <- _]. exists []. by rewrite app_nil_r.
  - intros (added & ->)%IH. eexists. by rewrite <- (assoc_L (++)).
Qed.

Lemma operand_refs_concat (operands : list (Argument string)) k :
  k ∈ concat (map arg_refs operands) <-> exists a, a ∈ operands /\ k ∈ arg_refs a.
Proof.
  induction operands as [|x l IH]; cbn.
  - split; [by intros ?%elem_of_nil | by intros (a & ?%elem_of_nil & _)].
  - rewrite elem_of_app, IH. split.
    + intros [?|(a & ? & ?)]; [exists x; split; [constructor|done] |].
      exists a. split; [by constructor|done].
    + intros (a & [->|?]%elem_of_cons & ?); [by left | right; eauto].
Qed.

Lemma sample_expand_result operands cl g g' r :
  Sample.expand operands cl g = Ok (g', r) ->
  (forall a k, a ∈ operands -> k ∈ arg_refs a -> k ∈ names g) ->
  r ∈ names g'.
Proof.
  revert operands g. induction cl as [|equation cl IH]; intros operands g; cbn.
  - destruct operands as [|[k| | | | |] ?]; try discriminate.
    intros [= <- <-] Hops. apply (Hops (ANode k)); cbn; apply list_elem_of_here.
  - intros H _. apply IH in H; [exact H|].
    intros a k ->%list_elem_of_singleton ->%list_elem_of_singleton.
    rewrite names_app. apply elem_of_app. right. cbn. apply list_elem_of_here.
Qed.

Lemma sample_expand_lint operands cl g g' r :
  Sample.expand operands cl g = Ok (g', r) ->
  (forall a k, a ∈ operands -> k ∈ arg_refs a -> k ∈ names g) ->
  lint g = Ok tt ->
  lint g' = Ok tt.
Proof.
  revert operands g. induction cl as [|equation cl IH]; intros operands g; cbn.
  - destruct operands as [|[k| | | | |] ?]; try discriminate.
    by intros [= <- _] _ ?.
  - intros H Hops Hlint. apply IH in H; [exact H| |].
    + intros a k ->%list_elem_of_singleton ->%list_elem_of_singleton.
      rewrite names_app. apply elem_of_app. right. cbn. apply list_elem_of_here.
    + apply lint_snoc; [exact Hlint| |apply unique_name_fresh].
      rewrite einsum_node_refs. apply Forall_forall.
      intros k (a & ? & ?)%operand_refs_concat. by eapply Hops.
Qed.

Global Instance sample_laws : ExternalLaws (Ext := Sample.externals).
Proof.
  split.
  - apply unique_name_fresh.
  - apply sample_expand_appends.
  - apply sample_expand_result.
  - apply sample_expand_lint.
Qed.

(** ** The output graph *)

Section Output.
Context `{Laws : ExternalLaws}.

Lemma optimize_einsums_graph_ok graph w G' :
  optimize_einsums_graph graph = (w, Ok G') ->
  exists st, optimize_einsums_loop graph = (w, Ok st) /\ new_graph st = G'
             /\ lint G' = Ok tt.
Proof.
  unfold optimize_einsums_graph, optimize_einsums_loop.
  intros (w1 & st & w2 & Hloop & H & ->)%mbind_ok.
  rewrite mbind_lift in H. destruct (lint (new_graph st)) as [[]|e] eqn:Hlint; [|discriminate].
  injection H as <- <-. exists st. by rewrite app_nil_r.
Qed.

(** Every warning is the one of an einsum call of the nodes processed that
    has an operand without shape. *)
Lemma process_nodes_warnings graph nodes st :
  Forall (fun m => exists node, node ∈ nodes /\ is_einsum node = true
                                /\ get_shapes graph node = None
                                /\ m = lacked_shape_warning node)
         (warnings (process_nodes graph nodes st)).
Proof.
  revert st. induction nodes as [|n nodes IH]; intros st; cbn [process_nodes].
  - constructor.
  - assert (Hn : Forall (fun m => exists node, node ∈ n :: nodes /\ is_einsum node = true
                                   /\ get_shapes graph node = None
                                   /\ m = lacked_shape_warning node)
                   (warnings (process_node graph st n))).
    { destruct (is_einsum n) eqn:He.
      - destruct (get_shapes graph n) as [shapes|] eqn:Hs.
        + rewrite (process_node_expand _ _ _ shapes He Hs). constructor.
        + rewrite (process_node_fallback _ _ _ He Hs). cbn.
          constructor; [|constructor]. exists n. split; [constructor|done].
      - rewrite (process_node_ordinary _ _ _ He). constructor. }
    destruct (process_node graph st n) as [w1 [st1|e]]; cbn in *; [|exact Hn].
    specialize (IH st1). destruct (process_nodes graph nodes st1) as [w2 r]. cbn in *.
    apply Forall_app. split; [exact Hn|].
    eapply Forall_impl; [exact IH|]. cbn. intros m (node & ? & ?).
    exists node. split; [by constructor|done].
Qed.

(** C8. The output graph is a new graph, built by appending only: after any
    part of the input has been processed, the new graph so far is a prefix
    of the graph returned (it starts empty, and no node put in it is removed
    or changed afterwards).  The input graph is only read.  The one effect
    besides is the warnings, each of them for an einsum call that has an
    operand without shape. *)
Theorem output_built_by_appending pre post w G' :
  optimize_einsums_graph (pre ++ post) = (w, Ok G') ->
  (exists w1 st1,
      process_nodes (pre ++ post) pre initial_state = (w1, Ok st1)
      /\ new_graph st1 `prefix_of` G'
      /\ w1 `prefix_of` w)
  /\ Forall (fun m => exists node, node ∈ pre ++ post /\ is_einsum node = true
                                   /\ get_shapes (pre ++ post) node = None
                                   /\ m = lacked_shape_warning node) w.
Proof.
  intros (st & Hloop & <- & _)%optimize_einsums_graph_ok. split.
  - unfold optimize_einsums_loop in Hloop. rewrite process_nodes_app in Hloop.
    apply mbind_ok in Hloop as (w1 & st1 & w2 & Hpre & Hpost & ->).
    exists w1, st1. split; [exact Hpre|]. split; [|by exists w2].
    destruct (process_nodes_segments _ _ _ _ _ Hpost) as (segments & -> & _).
    by eexists.
  - pose proof (process_nodes_warnings (pre ++ post) (pre ++ post) initial_state) as Hw.
    unfold optimize_einsums_loop in Hloop. by rewrite Hloop in Hw.
Qed.

Lemma process_nodes_env_dom graph nodes st w st' k :
  process_nodes graph nodes st = (w, Ok st') ->
  is_Some (env st !! k) \/ k ∈ names nodes ->
  is_Some (env st' !! k).
Proof.
  revert st w. induction nodes as [|n nodes IH]; intros st w; cbn [process_nodes].
  - intros [= _ <-] [?|?%elem_of_nil]; done.
  - intros (w1 & st1 & w2 & H1 & H2 & _)%mbind_ok Hk.
    destruct (process_node_appends _ _ _ _ _ H1) as (added & r & _ & _ & Henv).
    eapply IH; [exact H2|].
    cbn in Hk. rewrite elem_of_cons in Hk. rewrite Henv.
    destruct Hk as [Hk|[->|Hk]]; [left|left|by right].
    + rewrite lookup_insert_is_Some. destruct (decide (name n = k)); auto.
    + rewrite lookup_insert_eq. eauto.
Qed.

Lemma topological_from_refs seen pre node post k :
  topological_from seen (pre ++ node :: post) = true ->
  k ∈ node_refs node ->
  k ∈ seen \/ k ∈ names pre.
Proof.
  revert seen. induction pre as [|m pre IH]; intros seen; cbn [app topological_from].
  - intros [Hrefs _]%andb_prop Hk. left.
    rewrite forallb_forall in Hrefs. eapply bool_decide_eq_true_1.
    apply Hrefs. by apply list_elem_of_In.
  - intros [_ H]%andb_prop Hk. destruct (IH _ H Hk) as [[->|?]%elem_of_cons|?].
    + right. cbn. apply list_elem_of_here.
    + by left.
    + right. cbn. by apply list_elem_of_further.
Qed.

(** C9. On a graph in topological order every lookup in [env] finds its
    key: when a node is reached, each node it has as argument is in [env].
    And the graph the loop has built passes [lint], so that the pass returns
    it. *)
Theorem topological_input_consistent_output graph :
  topological graph = true ->
  (forall pre node post w st k,
      graph = pre ++ node :: post ->
      process_nodes graph pre initial_state = (w, Ok st) ->
      k ∈ node_refs node ->
      is_Some (env st !! k))
  /\ (forall w st,
        optimize_einsums_loop graph = (w, Ok st) ->
        lint (new_graph st) = Ok tt
        /\ optimize_einsums_graph graph = (w, Ok (new_graph st))).
Proof.
  intros Htopo. split.
  - intros pre node post w st k -> Hpre Hk.
    eapply process_nodes_env_dom; [exact Hpre|]. right.
    destruct (topological_from_refs _ _ _ _ _ Htopo Hk) as [?%elem_of_nil|?]; done.
  - intros w st Hloop.
    assert (Hlint : lint (new_graph st) = Ok tt).
    { eapply process_nodes_consistent; [apply initial_state_consistent | exact Hloop]. }
    split; [exact Hlint|].
    unfold optimize_einsums_graph. unfold optimize_einsums_loop in Hloop.
    rewrite Hloop. cbn. rewrite Hlint. cbn. by rewrite app_nil_r.
Qed.

End Output.

(** ** Graphs without shapes *)

Lemma map_arg_id (e : gmap string string) a :
  (forall k, k ∈ arg_refs a -> e !! k = Some k) ->
  map_arg (env_lookup e) a = Ok a.
Proof.
  induction a as [k|l|xs IH|xs IH|kvs IH|a1 a2 a3 IH1 IH2 IH3]
    using Argument_nested_ind; cbn; intros He.
  - unfold env_lookup. rewrite (He k) by apply list_elem_of_here. reflexivity.
  - reflexivity.
  - assert (mapR (map_arg (env_lookup e)) xs = Ok xs) as ->; [|reflexivity].
    induction IH as [|x xs Hx _ IHxs]; [reflexivity|]. cbn in He |- *.
    rewrite Hx by (intros k Hk; apply He, elem_of_app; by left). cbn.
    rewrite IHxs by (intros k Hk; apply He, elem_of_app; by right). reflexivity.
  - assert (mapR (map_arg (env_lookup e)) xs = Ok xs) as ->; [|reflexivity].
    induction IH as [|x xs Hx _ IHxs]; [reflexivity|]. cbn in He |- *.
    rewrite Hx by (intros k Hk; apply He, elem_of_app; by left). cbn.
    rewrite IHxs by (intros k Hk; apply He, elem_of_app; by right). reflexivity.
  - match goal with |- mapR ?f kvs ≫= _ = _ => assert (mapR f kvs = Ok kvs) as -> end;
      [|reflexivity].
    induction IH as [|[k v] kvs Hv _ IHkvs]; [reflexivity|]. cbn in He, Hv |- *.
    rewrite Hv by (intros k0 Hk; apply He, elem_of_app; by left). cbn.
    rewrite IHkvs by (intros k0 Hk; apply He, elem_of_app; by right). reflexivity.
  - rewrite IH1 by (intros k Hk; apply He; rewrite !elem_of_app; auto). cbn.
    rewrite IH2 by (intros k Hk; apply He; rewrite !elem_of_app; auto). cbn.
    rewrite IH3 by (intros k Hk; apply He; rewrite !elem_of_app; auto). reflexivity.
Qed.

Lemma map_args_id (e : gmap string string) l :
  (forall k, k ∈ concat (map arg_refs l) -> e !! k = Some k) ->
  map_args (env_lookup e) l = Ok l.
Proof.
  unfold map_args. induction l as [|x l IH]; cbn; intros He; [reflexivity|].
  rewrite map_arg_id by (intros k Hk; apply He, elem_of_app; by left). cbn.
  rewrite IH by (intros k Hk; apply He, elem_of_app; by right). reflexivity.
Qed.

Lemma map_kwargs_id (e : gmap string string) l :
  (forall k, k ∈ concat (map (fun kv => arg_refs (snd kv)) l) -> e !! k = Some k) ->
  map_kwargs (env_lookup e) l = Ok l.
Proof.
  unfold map_kwargs. induction l as [|[k v] l IH]; cbn; intros He; [reflexivity|].
  rewrite map_arg_id by (intros k0 Hk; apply He, elem_of_app; by left). cbn.
  rewrite IH by (intros k0 Hk; apply He, elem_of_app; by right). reflexivity.
Qed.

Lemma find_node_elem g k n : find_node g k = Some n -> n ∈ g.
Proof. unfold find_node. intros [H _]%find_some. by apply list_elem_of_In. Qed.

Lemma unshaped_arg_shape graph a :
  Forall (fun n => shape n = None) graph -> arg_shape graph a = None.
Proof.
  intros Hg. destruct a as [k| | | | |]; cbn; try reflexivity.
  destruct (find_node graph k) as [n|] eqn:Hk; [|reflexivity]. cbn.
  rewrite Forall_forall in Hg. apply Hg. by eapply find_node_elem.
Qed.

Lemma unshaped_get_shapes graph node :
  Forall (fun n => shape n = None) graph ->
  tail (args node) <> [] ->
  get_shapes graph node = None.
Proof.
  intros Hg Hops. unfold get_shapes.
  destruct (tail (args node)) as [|a l]; [done|].
  cbn. by rewrite unshaped_arg_shape.
Qed.

Section Unshaped.
Context `{Ext : Externals}.

(** Copying a node whose arguments [env] maps to themselves, under its own
    name, gives the node itself. *)
Lemma copied_same st node :
  (forall k, k ∈ node_refs node -> env st !! k = Some k) ->
  create_name (names (new_graph st)) (name node) = name node ->
  shape node = None ->
  copied st node =
  Ok {| new_graph := new_graph st ++ [node];
        env := <[name node := name node]> (env st) |}.
Proof.
  intros He Hname Hshape. unfold copied, node_copy, create_node.
  rewrite map_args_id by (intros k Hk; apply He, elem_of_app; by left). cbn.
  rewrite map_kwargs_id by (intros k Hk; apply He, elem_of_app; by right). cbn.
  rewrite Hname. destruct node; cbn in *. by subst.
Qed.

Lemma process_nodes_unshaped graph nodes seen st :
  Forall (fun n => shape n = None) graph ->
  Forall (fun n => shape n = None) nodes ->
  Forall (fun n => is_einsum n = true -> tail (args n) <> []) nodes ->
  lint_from seen nodes = Ok tt ->
  names_kept_from (names (new_graph st)) nodes = true ->
  (forall x, x ∈ seen <-> x ∈ names (new_graph st)) ->
  (forall k, k ∈ seen -> env st !! k = Some k) ->
  exists st',
    process_nodes graph nodes st =
      (lacked_shape_warning <$> List.filter is_einsum nodes, Ok st')
    /\ new_graph st' = new_graph st ++ nodes.
Proof.
  intros Hgraph. revert seen st.
  induction nodes as [|n nodes IH]; intros seen st Hshapes Hops Hlint Hkept Hseen Henv.
  - exists st. split; [reflexivity | by rewrite app_nil_r].
  - cbn [names_kept_from] in Hkept. apply andb_prop in Hkept as [Hname Hkept].
    apply bool_decide_eq_true in Hname.
    apply Forall_cons in Hshapes as [Hshape Hshapes].
    apply Forall_cons in Hops as [Hop Hops].
    apply lint_from_cons in Hlint as (Hrefs & Hfresh & Hlint).
    rewrite Forall_forall in Hrefs.
    assert (Hcopy : copied st n =
              Ok {| new_graph := new_graph st ++ [n];
                    env := <[name n := name n]> (env st) |}).
    { apply copied_same; [by auto|exact Hname|exact Hshape]. }
    set (st1 := {| new_graph := new_graph st ++ [n];
                   env := <[name n := name n]> (env st) |}) in *.
    destruct (IH (name n :: seen) st1 Hshapes Hops Hlint) as (st' & Hrun & Hg).
    { cbn. by rewrite names_app. }
    { intros x. cbn. rewrite names_app, elem_of_cons, elem_of_app, Hseen. cbn.
      rewrite list_elem_of_singleton. tauto. }
    { intros k [->|Hk]%elem_of_cons; cbn.
      - apply lookup_insert_eq.
      - rewrite lookup_insert_ne; [by apply Henv|]. intros Heq.
        apply Hfresh. by rewrite Heq. }
    exists st'. split.
    + cbn [process_nodes List.filter]. destruct (is_einsum n) eqn:He.
      * rewrite (process_node_fallback graph st n He)
          by (apply unshaped_get_shapes; auto).
        rewrite Hcopy. cbn [mbind M_bind]. rewrite Hrun. reflexivity.
      * rewrite (process_node_ordinary graph st n He).
        rewrite Hcopy. cbn [mbind M_bind]. rewrite Hrun. reflexivity.
    + rewrite Hg. cbn. by rewrite <- (assoc_L (++)).
Qed.

(** C4, amended.  On a graph as [fx] builds it (it passes [lint], and its
    nodes are given their names again when they are copied in order), in
    which no node has a shape and every einsum call has at least one operand
    after the index-string, the pass returns the graph itself and emits
    exactly one warning for each einsum call, in order. *)
Theorem unshaped_graph_unchanged graph :
  names_kept graph = true ->
  lint graph = Ok tt ->
  Forall (fun n => shape n = None) graph ->
  Forall (fun n => is_einsum n = true -> tail (args n) <> []) graph ->
  optimize_einsums_graph graph =
    (lacked_shape_warning <$> List.filter is_einsum graph, Ok graph).
Proof.
  intros Hkept Hlint Hshapes Hops.
  destruct (process_nodes_unshaped graph graph [] initial_state
              Hshapes Hshapes Hops Hlint) as (st' & Hrun & Hg).
  { exact Hkept. }
  { intros x. cbn. reflexivity. }
  { by intros k ?%elem_of_nil. }
  cbn in Hg. unfold optimize_einsums_graph. rewrite Hrun. cbn [mbind M_bind].
  rewrite Hg, Hlint. cbn. by rewrite app_nil_r.
Qed.

(** A naming that returns as it is a name of the graph that is not in use
    (as the naming of [fx.Graph] does with the names it has made itself)
    gives the nodes of a graph with distinct names their names again. *)
Lemma names_kept_from_free used graph :
  (forall u c, c ∈ names graph -> c ∉ u -> create_name u c = c) ->
  NoDup (used ++ names graph) ->
  names_kept_from used graph = true.
Proof.
  revert used. induction graph as [|n g IH]; intros used Hfree Hnd; [reflexivity|].
  cbn [names_kept_from]. apply andb_true_intro. split.
  - apply bool_decide_eq_true. apply Hfree; [apply list_elem_of_here|].
    apply NoDup_app in Hnd as (_ & Hdisj & _). intros Hin.
    apply (Hdisj _ Hin). apply list_elem_of_here.
  - apply IH.
    + intros u c Hc. apply Hfree. by apply list_elem_of_further.
    + cbn in Hnd. by rewrite <- (assoc_L (++)).
Qed.

(** Nodes that are all copied add one node each. *)
Lemma process_nodes_unshaped_length graph nodes st w st' :
  Forall (fun n => is_einsum n = true -> get_shapes graph n = None) nodes ->
  process_nodes graph nodes st = (w, Ok st') ->
  exists out, new_graph st' = new_graph st ++ out /\ length out = length nodes.
Proof.
  revert st w. induction nodes as [|n nodes IH]; intros st w Hun; cbn [process_nodes].
  - intros [= _ <-]. exists []. by rewrite app_nil_r.
  - apply Forall_cons in Hun as [Hn Hun].
    intros (w1 & st1 & w2 & H1 & H2 & _)%mbind_ok.
    destruct (IH _ _ Hun H2) as (out & Hout & Hlen).
    apply process_node_ok in H1
      as [(He & _ & shapes & Hs & _) | [(_ & _ & _ & H) | (_ & _ & H)]].
    + rewrite (Hn He) in Hs. discriminate.
    + apply copied_ok in H as (node' & _ & _ & Hg & _).
      exists (node' :: out). rewrite Hout, Hg, <- (assoc_L (++)). cbn. by rewrite Hlen.
    + apply copied_ok in H as (node' & _ & _ & Hg & _).
      exists (node' :: out). rewrite Hout, Hg, <- (assoc_L (++)). cbn. by rewrite Hlen.
Qed.

Lemma process_nodes_unshaped_names graph nodes st w st' :
  Forall (fun n => is_einsum n = true -> get_shapes graph n = None) nodes ->
  process_nodes graph nodes st = (w, Ok st') ->
  new_graph st' = new_graph st ++ nodes ->
  names_kept_from (names (new_graph st)) nodes = true.
Proof.
  revert st w. induction nodes as [|n nodes IH]; intros st w Hun; cbn [process_nodes];
    [reflexivity|].
  apply Forall_cons in Hun as [Hn Hun].
  intros (w1 & st1 & w2 & H1 & H2 & _)%mbind_ok Hfinal.
  destruct (process_nodes_unshaped_length _ _ _ _ _ Hun H2) as (out & Hout & Hlen).
  assert (Hcopy : copied st n = Ok st1).
  { apply process_node_ok in H1
      as [(He & _ & shapes & Hs & _) | [(_ & _ & _ & H) | (_ & _ & H)]]; [|done..].
    rewrite (Hn He) in Hs. discriminate. }
  apply copied_ok in Hcopy as (node' & _ & Hname & Hg & _).
  rewrite Hout, Hg, <- (assoc_L (++)) in Hfinal. apply app_inv_head in Hfinal.
  cbn in Hfinal. injection Hfinal as -> ->.
  cbn [names_kept_from]. apply andb_true_intro. split.
  - apply bool_decide_eq_true. by rewrite <- Hname.
  - specialize (IH st1 w2 Hun H2). rewrite Hg, names_app in IH. cbn in IH.
    apply IH. by rewrite Hout, Hg.
Qed.

(** Only such a graph is returned as it is: when the pass returns the graph
    it was given, no node of which has a shape, the graph passes [lint] and
    its nodes have been given their names again. *)
Lemma unshaped_unchanged_only_if graph w :
  Forall (fun n => shape n = None) graph ->
  Forall (fun n => is_einsum n = true -> tail (args n) <> []) graph ->
  optimize_einsums_graph graph = (w, Ok graph) ->
  names_kept graph = true /\ lint graph = Ok tt.
Proof.
  intros Hshapes Hops Hrun. unfold optimize_einsums_graph in Hrun.
  apply mbind_ok in Hrun as (w1 & st & w2 & Hloop & H & _).
  rewrite mbind_lift in H.
  destruct (lint (new_graph st)) as [[]|e] eqn:Hlint; [|discriminate].
  injection H as _ Hg. rewrite Hg in Hlint. split; [|exact Hlint].
  eapply (process_nodes_unshaped_names graph graph initial_state); [|exact Hloop|exact Hg].
  eapply Forall_impl; [exact Hops|]. cbn. intros n Hn He.
  apply unshaped_get_shapes; auto.
Qed.

End Unshaped.

(** C4 as stated fails on an einsum call without operands: there is no
    operand whose shape is missing, so no warning is emitted; the optimizer
    is called, and here it raises. *)
Lemma unshaped_graph_no_warning :
  Forall (fun n => shape n = None) Tests.no_operands
  /\ length (List.filter is_einsum Tests.no_operands) = 1
  /\ optimize_einsums_graph (Ext := Sample.externals) Tests.no_operands =
     ([], Raise (External
        "Number of einsum subscripts must be equal to the number of operands.")).
Proof.
  split; [repeat constructor|]. split; vm_compute; reflexivity.
Qed.

(** Whatever the collaborators, the pass emits no warning on that graph. *)
Lemma no_operands_never_warns `{Ext : Externals} :
  warnings (optimize_einsums_graph Tests.no_operands) = [].
Proof.
  pose proof (process_nodes_warnings Tests.no_operands Tests.no_operands initial_state)
    as Hw.
  unfold optimize_einsums_graph.
  destruct (process_nodes Tests.no_operands Tests.no_operands initial_state)
    as [w [st|e]]; cbn in Hw |- *.
  - destruct (lint (new_graph st)); cbn; rewrite ?app_nil_r;
      (destruct w as [|m w]; [reflexivity|]);
      apply Forall_cons in Hw as [(node & Hin & He & Hs & _) _];
      unfold Tests.no_operands in Hin;
      repeat (apply elem_of_cons in Hin as [->|Hin]; [discriminate|]);
      by apply elem_of_nil in Hin.
  - destruct w as [|m w]; [reflexivity|].
    apply Forall_cons in Hw as [(node & Hin & He & Hs & _) _].
    unfold Tests.no_operands in Hin.
    repeat (apply elem_of_cons in Hin as [->|Hin]; [discriminate|]).
    by apply elem_of_nil in Hin.
Qed.

Lemma unshaped_graph_unchanged_witness :
  optimize_einsums_graph (Ext := Sample.externals) Tests.unfusable =
    (lacked_shape_warning <$> List.filter is_einsum Tests.unfusable, Ok Tests.unfusable).
Proof.
  apply (unshaped_graph_unchanged (Ext := Sample.externals) Tests.unfusable).
  - vm_compute. reflexivity.
  - vm_compute. reflexivity.
  - unfold Tests.unfusable, Tests.unshaped, Tests.unfusable_shaped. cbn.
    repeat (apply Forall_cons_2; [reflexivity|]). apply Forall_nil_2.
  - unfold Tests.unfusable, Tests.unshaped, Tests.unfusable_shaped. cbn.
    repeat (apply Forall_cons_2;
      [first [intros _; cbn; discriminate | intros H; vm_compute in H; discriminate H]|]).
    apply Forall_nil_2.
Defined.

Lemma output_built_by_appending_witness :
  exists w1 st1,
    process_nodes (Ext := Sample.externals)
      (take 3 Tests.fusable ++ drop 3 Tests.fusable) (take 3 Tests.fusable)
      initial_state = (w1, Ok st1)
    /\ new_graph st1 `prefix_of` Tests.fusable
    /\ w1 `prefix_of`
         (lacked_shape_warning <$> List.filter is_einsum Tests.fusable).
Proof.
  refine (proj1 (output_built_by_appending (Ext := Sample.externals)
    (take 3 Tests.fusable) (drop 3 Tests.fusable) _ Tests.fusable _)).
  vm_compute. reflexivity.
Defined.

Lemma topological_input_consistent_output_witness :
  is_Some (env {| new_graph := take 2 (Tests.unshaped Tests.unfusable_shaped);
                  env := <["y" := "y"]> (<["x" := "x"]> ∅) |} !! "x").
Proof.
  refine (proj1 (topological_input_consistent_output (Ext := Sample.externals)
    Tests.unfusable_shaped _)
    (take 2 Tests.unfusable_shaped)
    (Tests.mk "einsum_1" call_function Tests.einsum
       [ALit (LStr "ij,jk->ik"); ANode "x"; ANode "y"] (Some [3; 5]))
    (drop 3 Tests.unfusable_shaped) [] _ "x" _ _ _).
  - vm_compute. reflexivity.
  - reflexivity.
  - vm_compute. reflexivity.
  - cbn. apply list_elem_of_here.
Defined.

(** ** Dependencies of copied nodes *)

Lemma map_arg_ext {R R'} (f g : R -> Result R') (a : Argument R) :
  (forall k, k ∈ arg_refs a -> f k = g k) -> map_arg f a = map_arg g a.
Proof.
  induction a as [k|l|xs IH|xs IH|kvs IH|a1 a2 a3 IH1 IH2 IH3]
    using Argument_nested_ind; cbn; intros Hfg.
  - rewrite (Hfg k) by apply list_elem_of_here. reflexivity.
  - reflexivity.
  - assert (mapR (map_arg f) xs = mapR (map_arg g) xs) as ->; [|reflexivity].
    induction IH as [|x xs Hx _ IHxs]; [reflexivity|]. cbn in Hfg |- *.
    rewrite Hx by (intros k Hk; apply Hfg, elem_of_app; by left).
    rewrite IHxs by (intros k Hk; apply Hfg, elem_of_app; by right). reflexivity.
  - assert (mapR (map_arg f) xs = mapR (map_arg g) xs) as ->; [|reflexivity].
    induction IH as [|x xs Hx _ IHxs]; [reflexivity|]. cbn in Hfg |- *.
    rewrite Hx by (intros k Hk; apply Hfg, elem_of_app; by left).
    rewrite IHxs by (intros k Hk; apply Hfg, elem_of_app; by right). reflexivity.
  - match goal with
    | |- mapR ?F kvs ≫= _ = mapR ?G kvs ≫= _ =>
        assert (mapR F kvs = mapR G kvs) as ->; [|reflexivity]
    end.
    induction IH as [|[k v] kvs Hv _ IHkvs]; [reflexivity|]. cbn in Hfg, Hv |- *.
    rewrite Hv by (intros k0 Hk; apply Hfg, elem_of_app; by left).
    rewrite IHkvs by (intros k0 Hk; apply Hfg, elem_of_app; by right). reflexivity.
  - rewrite IH1 by (intros k Hk; apply Hfg; rewrite !elem_of_app; auto).
    rewrite IH2 by (intros k Hk; apply Hfg; rewrite !elem_of_app; auto).
    rewrite IH3 by (intros k Hk; apply Hfg; rewrite !elem_of_app; auto). reflexivity.
Qed.

Lemma map_args_ext {R R'} (f g : R -> Result R') (l : list (Argument R)) :
  (forall k, k ∈ concat (map arg_refs l) -> f k = g k) -> map_args f l = map_args g l.
Proof.
  unfold map_args. induction l as [|x l IH]; cbn; intros Hfg; [reflexivity|].
  rewrite (map_arg_ext f g) by (intros k Hk; apply Hfg, elem_of_app; by left).
  rewrite IH by (intros k Hk; apply Hfg, elem_of_app; by right). reflexivity.
Qed.

Lemma map_kwargs_ext {R R'} (f g : R -> Result R') (l : list (string * Argument R)) :
  (forall k, k ∈ concat (map (fun kv => arg_refs (snd kv)) l) -> f k = g k) ->
  map_kwargs f l = map_kwargs g l.
Proof.
  unfold map_kwargs. induction l as [|[k v] l IH]; cbn; intros Hfg; [reflexivity|].
  rewrite (map_arg_ext f g) by (intros k0 Hk; apply Hfg, elem_of_app; by left).
  rewrite IH by (intros k0 Hk; apply Hfg, elem_of_app; by right). reflexivity.
Qed.

(** A reference of an argument is looked up, and what is found is a
    reference of the mapped argument. *)
Lemma map_arg_refs_image {R R'} (f : R -> Result R') a a' k :
  map_arg f a = Ok a' ->
  k ∈ arg_refs a ->
  exists r, f k = Ok r /\ r ∈ arg_refs a'.
Proof.
  revert a'. induction a as [k0|l|xs IH|xs IH|kvs IH|a1 a2 a3 IH1 IH2 IH3]
    using Argument_nested_ind; intros a'; cbn.
  - intros H ->%list_elem_of_singleton. apply rbind_ok in H as (r & Hr & [= <-]).
    exists r. split; [exact Hr | apply list_elem_of_here].
  - by intros _ ?%elem_of_nil.
  - intros H. apply rbind_ok in H as (xs' & Hxs & [= <-]). cbn.
    apply mapR_Forall2 in Hxs. revert IH. induction Hxs as [|x x' xs xs' Hx Hxs IHxs];
      intros IH; cbn; [by intros ?%elem_of_nil|].
    apply Forall_cons in IH as [IHx IH]. intros [Hk|Hk]%elem_of_app.
    + destruct (IHx _ Hx Hk) as (r & ? & ?). exists r. split; [done|apply elem_of_app; by left].
    + destruct (IHxs IH Hk) as (r & ? & ?). exists r. split; [done|apply elem_of_app; by right].
  - intros H. apply rbind_ok in H as (xs' & Hxs & [= <-]). cbn.
    apply mapR_Forall2 in Hxs. revert IH. induction Hxs as [|x x' xs xs' Hx Hxs IHxs];
      intros IH; cbn; [by intros ?%elem_of_nil|].
    apply Forall_cons in IH as [IHx IH]. intros [Hk|Hk]%elem_of_app.
    + destruct (IHx _ Hx Hk) as (r & ? & ?). exists r. split; [done|apply elem_of_app; by left].
    + destruct (IHxs IH Hk) as (r & ? & ?). exists r. split; [done|apply elem_of_app; by right].
  - intros H. apply rbind_ok in H as (kvs' & Hkvs & [= <-]). cbn.
    apply mapR_Forall2 in Hkvs. revert IH.
    induction Hkvs as [|[k1 v] [k1' v'] kvs kvs' Hkv Hkvs IHkvs];
      intros IH; cbn; [by intros ?%elem_of_nil|].
    apply Forall_cons in IH as [IHv IH]. cbn in IHv.
    apply rbind_ok in Hkv as (v'' & Hv & [= <- <-]).
    intros [Hk|Hk]%elem_of_app.
    + destruct (IHv _ Hv Hk) as (r & ? & ?). exists r. split; [done|apply elem_of_app; by left].
    + destruct (IHkvs IH Hk) as (r & ? & ?). exists r. split; [done|apply elem_of_app; by right].
  - intros H. apply rbind_ok in H as (a1' & H1 & H).
    apply rbind_ok in H as (a2' & H2 & H). apply rbind_ok in H as (a3' & H3 & [= <-]).
    cbn. rewrite !elem_of_app. intros [Hk|[Hk|Hk]].
    + destruct (IH1 _ H1 Hk) as (r & ? & ?). exists r. rewrite !elem_of_app. auto.
    + destruct (IH2 _ H2 Hk) as (r & ? & ?). exists r. rewrite !elem_of_app. auto.
    + destruct (IH3 _ H3 Hk) as (r & ? & ?). exists r. rewrite !elem_of_app. auto.
Qed.

Lemma map_args_refs_image {R R'} (f : R -> Result R') l l' k :
  map_args f l = Ok l' ->
  k ∈ concat (map arg_refs l) ->
  exists r, f k = Ok r /\ r ∈ concat (map arg_refs l').
Proof.
  unfold map_args. intros Hm%mapR_Forall2.
  induction Hm as [|x x' l l' Hx Hm IH]; cbn; [by intros ?%elem_of_nil|].
  intros [Hk|Hk]%elem_of_app.
  - destruct (map_arg_refs_image _ _ _ _ Hx Hk) as (r & ? & ?).
    exists r. split; [done | apply elem_of_app; by left].
  - destruct (IH Hk) as (r & ? & ?). exists r. split; [done | apply elem_of_app; by right].
Qed.

Lemma map_kwargs_refs_image {R R'} (f : R -> Result R') l l' k :
  map_kwargs f l = Ok l' ->
  k ∈ concat (map (fun kv => arg_refs (snd kv)) l) ->
  exists r, f k = Ok r /\ r ∈ concat (map (fun kv => arg_refs (snd kv)) l').
Proof.
  unfold map_kwargs. intros Hm%mapR_Forall2.
  induction Hm as [|[k1 v] [k1' v'] l l' Hx Hm IH]; cbn; [by intros ?%elem_of_nil|].
  apply rbind_ok in Hx as (v'' & Hv & [= <- <-]).
  intros [Hk|Hk]%elem_of_app.
  - destruct (map_arg_refs_image _ _ _ _ Hv Hk) as (r & ? & ?).
    exists r. split; [done | apply elem_of_app; by left].
  - destruct (IH Hk) as (r & ? & ?). exists r. split; [done | apply elem_of_app; by right].
Qed.

Lemma env_lookup_ok e k r : env_lookup e k = Ok r <-> e !! k = Some r.
Proof.
  unfold env_lookup. destruct (e !! k) as [r'|]; split; intros H; by simplify_eq.
Qed.

Lemma copy_of_refs_image e node node' k :
  copy_of e node node' ->
  k ∈ node_refs node ->
  exists r, e !! k = Some r /\ r ∈ node_refs node'.
Proof.
  intros (_ & _ & _ & Ha & Hkw & _). unfold node_refs.
  intros [Hk|Hk]%elem_of_app.
  - destruct (map_args_refs_image _ _ _ _ Ha Hk) as (r & ?%env_lookup_ok & ?).
    exists r. split; [done | apply elem_of_app; by left].
  - destruct (map_kwargs_refs_image _ _ _ _ Hkw Hk) as (r & ?%env_lookup_ok & ?).
    exists r. split; [done | apply elem_of_app; by right].
Qed.

Lemma copy_of_env_ext e e' node node' :
  copy_of e node node' ->
  (forall k, k ∈ node_refs node -> e' !! k = e !! k) ->
  copy_of e' node node'.
Proof.
  intros (Ho & Ht & Hty & Ha & Hkw & Hs) He. unfold copy_of.
  assert (Hl : forall k, k ∈ node_refs node -> env_lookup e' k = env_lookup e k).
  { intros k Hk. unfold env_lookup. by rewrite He. }
  repeat split; try done.
  - rewrite <- Ha. apply map_args_ext. intros k Hk. apply Hl, elem_of_app. by left.
  - rewrite <- Hkw. apply map_kwargs_ext. intros k Hk. apply Hl, elem_of_app. by right.
Qed.

Section Dependencies.
Context `{Laws : ExternalLaws}.

(** The loop writes [env] only at the names of the nodes it processes. *)
Lemma process_nodes_env_other graph nodes st w st' k :
  process_nodes graph nodes st = (w, Ok st') ->
  k ∉ names nodes ->
  env st' !! k = env st !! k.
Proof.
  revert st w. induction nodes as [|n nodes IH]; intros st w; cbn [process_nodes].
  - by intros [= _ <-].
  - intros (w1 & st1 & w2 & H1 & H2 & _)%mbind_ok Hk.
    cbn in Hk. apply not_elem_of_cons in Hk as [Hne Hk].
    destruct (process_node_appends _ _ _ _ _ H1) as (added & r & _ & _ & Henv).
    rewrite (IH _ _ H2 Hk), Henv. by apply lookup_insert_ne.
Qed.

Lemma process_nodes_env_keys graph nodes st w st' k :
  process_nodes graph nodes st = (w, Ok st') ->
  is_Some (env st' !! k) ->
  is_Some (env st !! k) \/ k ∈ names nodes.
Proof.
  intros Hrun Hk. destruct (decide (k ∈ names nodes)) as [|Hn]; [by right|].
  left. by rewrite <- (process_nodes_env_other _ _ _ _ _ _ Hrun Hn).
Qed.

Lemma process_nodes_prefix graph nodes st w st' :
  process_nodes graph nodes st = (w, Ok st') ->
  new_graph st `prefix_of` new_graph st'.
Proof.
  intros (segments & -> & _)%process_nodes_segments. by eexists.
Qed.

(** A graph that passes [lint] has distinct names. *)
Lemma lint_from_NoDup seen g :
  lint_from seen g = Ok tt ->
  NoDup (names g) /\ forall k, k ∈ names g -> k ∉ seen.
Proof.
  revert seen. induction g as [|n g IH]; intros seen.
  - intros _. split; [constructor | by intros k ?%elem_of_nil].
  - intros (_ & Hn & Hg)%lint_from_cons. destruct (IH _ Hg) as [Hnd Hseen].
    split.
    + cbn. apply NoDup_cons. split; [|exact Hnd].
      intros Hin. apply (Hseen _ Hin). apply list_elem_of_here.
    + cbn. intros k [->|Hk]%elem_of_cons; [exact Hn|].
      intros Hin. apply (Hseen _ Hk). by apply list_elem_of_further.
Qed.

(** The new graph after a run of the loop on nodes with distinct names, none
    of them in [env] yet: what was there, followed in order by what each
    node has become; and the copy of a node that is not an einsum call is
    the node that [env] still maps its name to when the run is over, its
    arguments those of the node taken through that [env]. *)
Lemma process_nodes_copy_segments graph nodes st w st' :
  process_nodes graph nodes st = (w, Ok st') ->
  NoDup (names nodes) ->
  (forall k, is_Some (env st !! k) -> k ∉ names nodes) ->
  exists segments,
    new_graph st' = new_graph st ++ concat segments
    /\ Forall2 (copy_segment st') nodes segments.
Proof.
  revert st w. induction nodes as [|n nodes IH]; intros st w; cbn [process_nodes].
  - intros [= _ <-] _ _. exists []. split; [by rewrite app_nil_r | constructor].
  - intros (w1 & st1 & w2 & H1 & H2 & _)%mbind_ok Hnd Hkeys.
    cbn in Hnd. apply NoDup_cons in Hnd as [Hn Hnd].
    destruct (process_node_appends _ _ _ _ _ H1) as (added & r & Hg & _ & Henv).
    destruct (IH _ _ H2 Hnd) as (segments & Hg' & Hsegs).
    { intros k. rewrite Henv, lookup_insert_is_Some.
      intros [<-|[_ Hk]]; [exact Hn|].
      specialize (Hkeys k Hk). cbn in Hkeys. by apply not_elem_of_cons in Hkeys as [_ ?]. }
    exists (added :: segments). split.
    { rewrite Hg', Hg. cbn. by rewrite (assoc_L (++)). }
    constructor; [|exact Hsegs].
    intros Hne.
    apply process_node_ok in H1 as [(He & _) | [(He & _) | (_ & _ & Hcopy)]];
      [congruence..|].
    apply copied_ok in Hcopy as (node' & Hcopy & _ & Hg1 & Henv1).
    rewrite Hg1 in Hg. apply app_inv_head in Hg as <-.
    exists node'. split; [reflexivity|]. split.
    + rewrite (process_nodes_env_other _ _ _ _ _ _ H2 Hn), Henv1.
      apply lookup_insert_eq.
    + eapply copy_of_env_ext; [exact Hcopy|]. intros k Hk.
      destruct (copy_of_refs_image _ _ _ _ Hcopy Hk) as (r' & Hr' & _).
      assert (Hout : k ∉ names (n :: nodes)) by (apply Hkeys; eauto).
      cbn in Hout. apply not_elem_of_cons in Hout as [Hkn Hknodes].
      rewrite (process_nodes_env_other _ _ _ _ _ _ H2 Hknodes), Henv1.
      by apply lookup_insert_ne.
Qed.

(** What such a decomposition says of two nodes that are not einsum calls:
    the copy of the one that comes first in the input comes first in the
    concatenation. *)
Lemma copy_segments_in_order st graph segments pre a mid b post :
  Forall2 (copy_segment st) graph segments ->
  graph = pre ++ a :: mid ++ b :: post ->
  is_einsum a = false -> is_einsum b = false ->
  exists pre' a' mid' b' post',
    concat segments = pre' ++ a' :: mid' ++ b' :: post'
    /\ env st !! name a = Some (name a') /\ copy_of (env st) a a'
    /\ env st !! name b = Some (name b') /\ copy_of (env st) b b'.
Proof.
  intros Hsegs -> Ha Hb.
  apply Forall2_app_inv_l in Hsegs as (spre & srest & _ & Hsegs & ->).
  apply Forall2_cons_inv_l in Hsegs as (sa & srest' & Hsa & Hsegs & ->).
  apply Forall2_app_inv_l in Hsegs as (smid & srest & _ & Hsegs & ->).
  apply Forall2_cons_inv_l in Hsegs as (sb & spost & Hsb & _ & ->).
  destruct (Hsa Ha) as (a' & -> & Hea & Hca).
  destruct (Hsb Hb) as (b' & -> & Heb & Hcb).
  exists (concat spre), a', (concat smid), b', (concat spost).
  split; [|done]. rewrite concat_app. cbn. by rewrite concat_app.
Qed.

(** C6. On a graph with distinct names (those of an [fx.Graph] are), the
    graph returned is the concatenation, in the order of the input nodes, of
    what each input node has become, and its names are distinct.  A node
    that is not an einsum call has become one node, its copy: the node that
    [env] maps its name to when the loop is over, with its opcode, target
    and type, and its arguments taken through that [env].  So the copies of
    the non-einsum nodes stand in the output graph in the order these nodes
    have in the input graph. *)
Theorem order_preserved graph w G' :
  optimize_einsums_graph graph = (w, Ok G') ->
  NoDup (names graph) ->
  exists st segments,
    optimize_einsums_loop graph = (w, Ok st)
    /\ G' = concat segments
    /\ Forall2 (copy_segment st) graph segments
    /\ NoDup (names G').
Proof.
  intros (st & Hloop & <- & Hlint)%optimize_einsums_graph_ok Hnd.
  destruct (process_nodes_copy_segments _ _ _ _ _ Hloop Hnd) as (segments & Hg & Hsegs).
  { cbn. intros k [? Hk]. by rewrite lookup_empty in Hk. }
  exists st, segments. split; [exact Hloop|]. split; [exact Hg|]. split; [exact Hsegs|].
  by apply (lint_from_NoDup []).
Qed.


End Dependencies.

Lemma order_preserved_witness :
  exists st segments,
    optimize_einsums_loop (Ext := Sample.externals) Tests.fusable_shaped = ([], Ok st)
    /\ Tests.fusable_optimized = concat segments
    /\ Forall2 (copy_segment st) Tests.fusable_shaped segments
    /\ NoDup (names Tests.fusable_optimized).
Proof.
  refine (order_preserved (Ext := Sample.externals) Tests.fusable_shaped [] _ _ _).
  - vm_compute. reflexivity.
  - apply (bool_decide_unpack _). vm_compute. exact I.
Defined.

(** The decomposition tells the order: the graph returned for
    [Tests.fusable_shaped] with its first two nodes, the copies of the
    placeholders, exchanged has none. *)
Lemma exchanged_copies_rejected st segments x y rest :
  optimize_einsums_loop (Ext := Sample.externals) Tests.fusable_shaped = ([], Ok st) ->
  Tests.fusable_optimized = x :: y :: rest ->
  y :: x :: rest = concat segments ->
  ~ Forall2 (copy_segment st) Tests.fusable_shaped segments.
Proof.
  intros Hloop Hout Hcat Hsegs.
  vm_compute in Hloop. injection Hloop as <-.
  vm_compute in Hout. injection Hout as <- <- <-.
  unfold Tests.fusable_shaped in Hsegs.
  apply Forall2_cons_inv_l in Hsegs as (sx & srest & Hsx & _ & ->).
  destruct (Hsx eq_refl) as (x' & -> & Hex & _).
  cbn in Hcat. injection Hcat as <- _.
  vm_compute in Hex. discriminate.
Qed.


(** ** The fusable graph *)

Lemma env_lookup_insert e k r : env_lookup (<[k := r]> e) k = Ok r.
Proof. apply env_lookup_ok, lookup_insert_eq. Qed.

Lemma env_lookup_insert_ne e k k' r :
  k <> k' -> env_lookup (<[k := r]> e) k' = env_lookup e k'.
Proof. intros Hne. unfold env_lookup. by rewrite lookup_insert_ne. Qed.

Section Fusable.
Context `{Laws : ExternalLaws}.

Lemma fusable_run graph w st :
  get_shapes graph (Tests.mk "einsum_1" call_function Tests.einsum
    [ALit (LStr "ij,jk->ik"); ANode "x"; ANode "y"] (Some [3; 5]))
    = Some [[3; 4]; [4; 5]] ->
  get_shapes graph (Tests.mk "einsum_2" call_function Tests.einsum
    [ALit (LStr "ik,ij->i"); ANode "einsum_1"; ANode "x"] (Some [3]))
    = Some [[3; 5]; [3; 4]] ->
  process_nodes graph Tests.fusable_shaped initial_state = (w, Ok st) ->
  exists cl1 g1 r1 cl2 g2 r2,
    contract_path (ALit (LStr "ij,jk->ik")) [[3; 4]; [4; 5]] = Ok cl1
    /\ core_contract [ANode fusable_x; ANode fusable_y] cl1 fusable_inputs = Ok (g1, r1)
    /\ contract_path (ALit (LStr "ik,ij->i")) [[3; 5]; [3; 4]] = Ok cl2
    /\ core_contract [ANode r1; ANode fusable_x] cl2 g1 = Ok (g2, r2)
    /\ g2 `prefix_of` new_graph st
    /\ env st !! "einsum_1" = Some r1.
Proof.
  intros Hs1 Hs2. unfold Tests.fusable_shaped. cbn [process_nodes]. intros H.
  apply mbind_ok in H as (w1 & st1 & w1' & Hx & H & _).
  rewrite process_node_ordinary in Hx by reflexivity.
  cbn in Hx. injection Hx as <- <-.
  apply mbind_ok in H as (w2 & st2 & w2' & Hy & H & _).
  rewrite process_node_ordinary in Hy by reflexivity.
  cbn in Hy. injection Hy as <- <-.
  apply mbind_ok in H as (w3 & st3 & w3' & He1 & H & _).
  rewrite (process_node_expand graph _ _ [[3; 4]; [4; 5]]) in He1
    by first [reflexivity | assumption].
  injection He1 as <- He1.
  apply expand_einsum_ok in He1
    as (einstr & cl1 & pa1 & r1 & Hf1 & Hcl1 & Hpa1 & Hc1 & Henv1).
  cbn in Hf1. injection Hf1 as <-.
  cbn in Hpa1. rewrite env_lookup_insert in Hpa1.
  rewrite env_lookup_insert_ne, env_lookup_insert in Hpa1 by done.
  cbn in Hpa1. injection Hpa1 as <-. cbn in Hc1, Henv1.
  apply mbind_ok in H as (w4 & st4 & w4' & He2 & H & _).
  rewrite (process_node_expand graph _ _ [[3; 5]; [3; 4]]) in He2
    by first [reflexivity | assumption].
  injection He2 as <- He2.
  apply expand_einsum_ok in He2
    as (einstr & cl2 & pa2 & r2 & Hf2 & Hcl2 & Hpa2 & Hc2 & Henv2).
  cbn in Hf2. injection Hf2 as <-.
  cbn in Hpa2. rewrite Henv1, env_lookup_insert in Hpa2.
  rewrite !env_lookup_insert_ne, env_lookup_insert in Hpa2 by done.
  cbn in Hpa2. injection Hpa2 as <-. cbn in Hc2, Henv2.
  apply mbind_ok in H as (w5 & st5 & w5' & Ho & H & _).
  injection H as _ <-.
  exists cl1, (new_graph st3), r1, cl2, (new_graph st4), r2.
  split; [exact Hcl1|]. split; [exact Hc1|]. split; [exact Hcl2|]. split; [exact Hc2|].
  destruct (process_node_appends _ _ _ _ _ Ho) as (added & r & Hg & _ & Henv5).
  split; [by eexists|].
  rewrite Henv5, Henv2, Henv1. cbn.
  rewrite !lookup_insert_ne by done. apply lookup_insert_eq.
Qed.

(** C2, amended.  On the fusable graph the pass expands each of the two
    einsum calls on its own.  The node returned by the expansion of the
    first call, which carries the intermediate result, is the first operand
    of the expansion of the second call, and it is in the graph returned:
    the intermediate result is not eliminated. *)
Theorem fusable_expanded_separately w st :
  optimize_einsums_loop Tests.fusable_shaped = (w, Ok st) ->
  exists cl1 g1 r1 cl2 g2 r2,
    contract_path (ALit (LStr "ij,jk->ik")) [[3; 4]; [4; 5]] = Ok cl1
    /\ core_contract [ANode fusable_x; ANode fusable_y] cl1 fusable_inputs = Ok (g1, r1)
    /\ contract_path (ALit (LStr "ik,ij->i")) [[3; 5]; [3; 4]] = Ok cl2
    /\ core_contract [ANode r1; ANode fusable_x] cl2 g1 = Ok (g2, r2)
    /\ g2 `prefix_of` new_graph st
    /\ env st !! "einsum_1" = Some r1
    /\ stands_in st "einsum_1" = true.
Proof.
  intros Hloop.
  destruct (fusable_run Tests.fusable_shaped w st eq_refl eq_refl Hloop)
    as (cl1 & g1 & r1 & cl2 & g2 & r2 & H1 & H2 & H3 & H4 & H5 & H6).
  exists cl1, g1, r1, cl2, g2, r2. repeat (split; [assumption|]).
  unfold stands_in. rewrite H6. apply bool_decide_eq_true.
  pose proof (process_nodes_consistent _ _ _ _ _ initial_state_consistent Hloop)
    as [_ Hrange].
  by eapply Hrange.
Qed.

End Fusable.

(** C2 as stated fails: with the sample collaborators the node that stands
    for the intermediate result is in the graph returned. *)
Lemma fusable_intermediate_remains :
  exists st,
    optimize_einsums_loop (Ext := Sample.externals) Tests.fusable_shaped = ([], Ok st)
    /\ optimize_einsums_graph (Ext := Sample.externals) Tests.fusable_shaped =
       ([], Ok Tests.fusable_optimized)
    /\ env st !! "einsum_1" = Some "einsum"
    /\ stands_in st "einsum_1" = true.
Proof.
  eexists. split; [vm_compute; reflexivity|]. split; [vm_compute; reflexivity|].
  split; vm_compute; reflexivity.
Qed.

Lemma fusable_expanded_separately_witness :
  exists cl1 g1 r1 cl2 g2 r2,
    contract_path (Externals := Sample.externals)
      (ALit (LStr "ij,jk->ik")) [[3; 4]; [4; 5]] = Ok cl1
    /\ core_contract (Externals := Sample.externals)
         [ANode (fusable_x (Ext := Sample.externals));
          ANode (fusable_y (Ext := Sample.externals))] cl1
         (fusable_inputs (Ext := Sample.externals)) = Ok (g1, r1)
    /\ contract_path (Externals := Sample.externals)
         (ALit (LStr "ik,ij->i")) [[3; 5]; [3; 4]] = Ok cl2
    /\ core_contract (Externals := Sample.externals)
         [ANode r1; ANode (fusable_x (Ext := Sample.externals))] cl2 g1 = Ok (g2, r2)
    /\ g2 `prefix_of` Tests.fusable_optimized
    /\ list_to_map (M := gmap string string)
         [("x", "x"); ("y", "y"); ("einsum_1", "einsum"); ("einsum_2", "einsum0");
          ("output", "output")] !! "einsum_1" = Some r1
    /\ stands_in
         {| new_graph := Tests.fusable_optimized;
            env := list_to_map
              [("x", "x"); ("y", "y"); ("einsum_1", "einsum"); ("einsum_2", "einsum0");
               ("output", "output")] |} "einsum_1" = true.
Proof.
  refine (fusable_expanded_separately (Ext := Sample.externals) []
    {| new_graph := Tests.fusable_optimized;
       env := list_to_map
         [("x", "x"); ("y", "y"); ("einsum_1", "einsum"); ("einsum_2", "einsum0");
          ("output", "output")] |} _).
  vm_compute. reflexivity.
Defined.

(** ** Running the rewritten graph *)

Lemma mapR_compose {A B C} (f : A -> Result C) (g : A -> Result B)
    (h : B -> Result C) xs xs' ys :
  Forall (fun x => forall x' y, f x = Ok y -> g x = Ok x' -> h x' = Ok y) xs ->
  mapR f xs = Ok ys -> mapR g xs = Ok xs' -> mapR h xs' = Ok ys.
Proof.
  intros Hall. revert xs' ys. induction Hall as [|x xs Hx _ IH]; intros xs' ys; cbn.
  - by intros [= <-] [= <-].
  - intros Hf Hg.
    apply rbind_ok in Hf as (y & Hy & Hf). apply rbind_ok in Hf as (ys0 & Hys & [= <-]).
    apply rbind_ok in Hg as (x' & Hx' & Hg). apply rbind_ok in Hg as (xs0 & Hxs & [= <-]).
    cbn. rewrite (Hx _ _ Hy Hx'). cbn. rewrite (IH _ _ Hys Hxs). reflexivity.
Qed.

Section Fetch.
Context {V : Type}.

Lemma fetch_ok (values : gmap string V) k v :
  fetch values k = Ok v <-> values !! k = Some v.
Proof.
  unfold fetch. destruct (values !! k) as [v'|]; split; intros H; by simplify_eq.
Qed.

(** Fetching the arguments of a copy in the new run gives what fetching the
    arguments of the node gave in the old run. *)
Lemma map_arg_fetch_related st (old new : gmap string V) a a' av :
  related st old new ->
  map_arg (fetch old) a = Ok av ->
  map_arg (env_lookup (env st)) a = Ok a' ->
  map_arg (fetch new) a' = Ok av.
Proof.
  intros Hrel. revert a' av.
  induction a as [k|l|xs IH|xs IH|kvs IH|a1 a2 a3 IH1 IH2 IH3]
    using Argument_nested_ind; intros a' av; cbn.
  - intros Hf He. apply rbind_ok in Hf as (v & Hv%fetch_ok & [= <-]).
    apply rbind_ok in He as (r & Hr%env_lookup_ok & [= <-]).
    destruct (Hrel _ _ Hv) as (r' & Hr' & _ & Hnew).
    assert (r' = r) as -> by congruence.
    cbn. apply fetch_ok in Hnew. by rewrite Hnew.
  - by intros [= <-] [= <-].
  - intros Hf He. apply rbind_ok in Hf as (ys & Hys & [= <-]).
    apply rbind_ok in He as (xs' & Hxs & [= <-]). cbn.
    by rewrite (mapR_compose _ _ _ _ _ _ IH Hys Hxs).
  - intros Hf He. apply rbind_ok in Hf as (ys & Hys & [= <-]).
    apply rbind_ok in He as (xs' & Hxs & [= <-]). cbn.
    by rewrite (mapR_compose _ _ _ _ _ _ IH Hys Hxs).
  - intros Hf He. apply rbind_ok in Hf as (ys & Hys & [= <-]).
    apply rbind_ok in He as (kvs' & Hkvs & [= <-]). cbn.
    erewrite mapR_compose; [reflexivity| |exact Hys|exact Hkvs].
    eapply Forall_impl; [exact IH|]. cbn. intros [k v] Hv [k2 x'] [k1 y] Hy Hx'.
    cbn in Hv. apply rbind_ok in Hy as (y0 & Hy0 & [= <- <-]).
    apply rbind_ok in Hx' as (x0 & Hx0 & [= <- <-]).
    by rewrite (Hv _ _ Hy0 Hx0).
  - intros Hf He.
    apply rbind_ok in Hf as (v1 & H1 & Hf). apply rbind_ok in Hf as (v2 & H2 & Hf).
    apply rbind_ok in Hf as (v3 & H3 & [= <-]).
    apply rbind_ok in He as (b1 & G1 & He). apply rbind_ok in He as (b2 & G2 & He).
    apply rbind_ok in He as (b3 & G3 & [= <-]).
    cbn. rewrite (IH1 _ _ H1 G1). cbn. rewrite (IH2 _ _ H2 G2). cbn.
    by rewrite (IH3 _ _ H3 G3).
Qed.

Lemma map_args_fetch_related st (old new : gmap string V) l l' lv :
  related st old new ->
  map_args (fetch old) l = Ok lv ->
  map_args (env_lookup (env st)) l = Ok l' ->
  map_args (fetch new) l' = Ok lv.
Proof.
  intros Hrel. unfold map_args. apply mapR_compose.
  apply Forall_forall. intros a _ a' av. by apply map_arg_fetch_related.
Qed.

Lemma map_kwargs_fetch_related st (old new : gmap string V) l l' lv :
  related st old new ->
  map_kwargs (fetch old) l = Ok lv ->
  map_kwargs (env_lookup (env st)) l = Ok l' ->
  map_kwargs (fetch new) l' = Ok lv.
Proof.
  intros Hrel. unfold map_kwargs. apply mapR_compose.
  apply Forall_forall. intros [k a] _ [k2 a'] [k1 av] Hy Hx.
  apply rbind_ok in Hy as (y0 & Hy0 & [= <- <-]).
  apply rbind_ok in Hx as (x0 & Hx0 & [= <- <-]).
  by rewrite (map_arg_fetch_related _ _ _ _ _ _ Hrel Hy0 Hx0).
Qed.

End Fetch.

Section Running.
Context {V : Type} `{Sem : Semantics V}.

Lemma run_nodes_app l1 l2 (inputs : list V) values :
  run_nodes (l1 ++ l2) inputs values =
  s ← run_nodes l1 inputs values;
  match s with
  | Next inputs' values' => run_nodes l2 inputs' values'
  | Return v => Ok (Return v)
  end.
Proof.
  revert inputs values. induction l1 as [|n l1 IH]; intros inputs values; cbn [app run_nodes].
  - reflexivity.
  - destruct (run_node n inputs values) as [[i' values'|v]|e]; cbn; [apply IH|done..].
Qed.

Lemma run_nodes_singleton n (inputs : list V) values :
  run_nodes [n] inputs values = run_node n inputs values.
Proof.
  cbn. by destruct (run_node n inputs values) as [[i' values'|v]|e].
Qed.

Lemma run_node_next n (inputs : list V) values inputs' values' :
  run_node n inputs values = Ok (Next inputs' values') ->
  exists v, values' = <[name n := v]> values.
Proof.
  unfold run_node. intros H.
  apply rbind_ok in H as (a & _ & H). apply rbind_ok in H as (kw & _ & H).
  destruct (op n).
  - destruct inputs as [|v rest]; [discriminate|]. injection H as _ <-. eauto.
  - apply rbind_ok in H as (v & _ & [= _ <-]). eauto.
  - apply rbind_ok in H as (v & _ & [= _ <-]). eauto.
  - apply rbind_ok in H as (v & _ & [= _ <-]). eauto.
  - apply rbind_ok in H as (v & _ & [= _ <-]). eauto.
  - destruct a; discriminate.
Qed.

(** A node with the opcode, target and fetched arguments of another runs as
    the other does, up to the name under which the value is kept. *)
Lemma run_node_copy n n' (inputs : list V) old new a kw s :
  op n' = op n -> target n' = target n ->
  map_args (fetch old) (args n) = Ok a ->
  map_kwargs (fetch old) (kwargs n) = Ok kw ->
  map_args (fetch new) (args n') = Ok a ->
  map_kwargs (fetch new) (kwargs n') = Ok kw ->
  run_node n inputs old = Ok s ->
  match s with
  | Next inputs' old' =>
      exists v, old' = <[name n := v]> old
                /\ run_node n' inputs new = Ok (Next inputs' (<[name n' := v]> new))
  | Return v => run_node n' inputs new = Ok (Return v)
  end.
Proof.
  intros Hop Ht Ha Hkw Ha' Hkw'. unfold run_node.
  rewrite Ha, Hkw, Ha', Hkw', Hop, Ht. cbn.
  destruct (op n).
  - destruct inputs as [|v rest]; [discriminate|]. intros [= <-]. eauto.
  - destruct (call _ _ a kw) as [v|e]; [|discriminate]. intros [= <-]. cbn. eauto.
  - destruct (call _ _ a kw) as [v|e]; [|discriminate]. intros [= <-]. cbn. eauto.
  - destruct (call _ _ a kw) as [v|e]; [|discriminate]. intros [= <-]. cbn. eauto.
  - destruct (call _ _ a kw) as [v|e]; [|discriminate]. intros [= <-]. cbn. eauto.
  - destruct a as [|v ?]; [discriminate|]. by intros [= <-].
Qed.

Lemma related_insert st st1 (old new new1 : gmap string V) k r v :
  related st old new ->
  env st1 = <[k := r]> (env st) ->
  (forall x, x ∈ names (new_graph st) -> x ∈ names (new_graph st1)) ->
  r ∈ names (new_graph st1) ->
  new1 !! r = Some v ->
  (forall x, x ∈ names (new_graph st) -> new1 !! x = new !! x) ->
  related st1 (<[k := v]> old) new1.
Proof.
  intros Hrel Henv Hsub Hr Hv Hframe k0 v0 Hk0.
  apply lookup_insert_Some in Hk0 as [[<- <-] | [Hne Hk0]].
  - exists r. rewrite Henv, lookup_insert_eq. auto.
  - destruct (Hrel _ _ Hk0) as (r0 & Hr0 & Hin & Hnew).
    exists r0. rewrite Henv, lookup_insert_ne by done.
    split; [exact Hr0|]. split; [by apply Hsub|]. by rewrite Hframe.
Qed.

End Running.

(** ** Equivalence *)

Lemma is_einsum_true node :
  is_einsum node = true -> op node = call_function /\ target node ∈ _EINSUM_FUNCS.
Proof.
  unfold is_einsum. intros [H1 H2]%andb_prop.
  split; by eapply bool_decide_eq_true_1.
Qed.

Lemma proxy_args_map_args e l :
  Forall (fun x => exists k, x = ANode k) l ->
  mapR (proxy_arg e) l = map_args (env_lookup e) l.
Proof.
  intros Hl. unfold map_args. apply mapR_ext. intros x Hx.
  rewrite Forall_forall in Hl. by destruct (Hl x Hx) as [k ->].
Qed.

Lemma nodes_fetch {V} (values : gmap string V) l lv :
  Forall (fun x => exists k, x = ANode k) l ->
  map_args (fetch values) l = Ok lv ->
  exists vs, lv = ANode <$> vs
             /\ Forall2 (fun x v => exists k, x = ANode k /\ values !! k = Some v) l vs.
Proof.
  unfold map_args. intros Hl. revert lv. induction Hl as [|x l [k ->] _ IH]; intros lv; cbn.
  - intros [= <-]. exists []. split; [reflexivity | constructor].
  - intros H. apply rbind_ok in H as (y & Hy & H).
    apply rbind_ok in H as (t & Ht & [= <-]).
    apply rbind_ok in Hy as (v & Hv%fetch_ok & [= <-]).
    destruct (IH _ Ht) as (vs & -> & Hvs).
    exists (v :: vs). split; [reflexivity|]. constructor; eauto.
Qed.

Section Equivalence.
Context `{Laws : ExternalLaws} {V : Type} `{Sem : Semantics V}.
Context {Sound : SoundExpansion}.

Lemma operand_shapes graph (old : gmap string V) l vs shapes :
  shapes_hold graph old ->
  Forall2 (fun x v => exists k, x = ANode k /\ old !! k = Some v) l vs ->
  mapM (arg_shape graph) l = Some shapes ->
  shape_of <$> vs = shapes.
Proof.
  intros Hsh Hvs. revert shapes. induction Hvs as [|x v l vs (k & -> & Hk) _ IH];
    intros shapes Hm; apply mapM_Some in Hm.
  - by apply Forall2_nil_inv_l in Hm as ->.
  - apply Forall2_cons_inv_l in Hm as (s & shapes' & Hs & Hm & ->).
    apply mapM_Some in Hm. cbn. f_equal; [|by apply IH].
    specialize (Hsh k). unfold shape_agrees in Hsh.
    change (arg_shape graph (ANode k)) with (find_node graph k ≫= shape) in Hs.
    rewrite Hk, Hs in Hsh. by apply bool_decide_eq_true_1 in Hsh.
Qed.

Lemma copied_simulation st node st1 (inputs : list V) old new s :
  copied st node = Ok st1 ->
  related st old new ->
  run_node node inputs old = Ok s ->
  exists added,
    new_graph st1 = new_graph st ++ added
    /\ match s with
       | Next inputs1 old1 =>
           exists new1, run_nodes added inputs new = Ok (Next inputs1 new1)
                        /\ related st1 old1 new1
       | Return v => run_nodes added inputs new = Ok (Return v)
       end.
Proof.
  intros (node' & Hcopy & Hname & Hg & Henv)%copied_ok Hrel Hrun.
  destruct Hcopy as (Hop & Ht & _ & Ha & Hkw & _).
  exists [node']. split; [exact Hg|]. rewrite run_nodes_singleton.
  pose proof Hrun as Hrun'. unfold run_node in Hrun'.
  apply rbind_ok in Hrun' as (a & Hfa & Hrun'). apply rbind_ok in Hrun' as (kw & Hfkw & _).
  pose proof (run_node_copy node node' inputs old new a kw s Hop Ht Hfa Hfkw
    (map_args_fetch_related _ _ _ _ _ _ Hrel Hfa Ha)
    (map_kwargs_fetch_related _ _ _ _ _ _ Hrel Hfkw Hkw) Hrun) as Hnew.
  destruct s as [inputs1 old1|v]; [|exact Hnew].
  destruct Hnew as (v & -> & Hnew). eexists. split; [exact Hnew|].
  assert (Hfresh : name node' ∉ names (new_graph st))
    by (rewrite Hname; apply create_name_fresh).
  eapply related_insert; [exact Hrel|exact Henv|..].
  - intros x Hx. rewrite Hg, names_app. apply elem_of_app. by left.
  - rewrite Hg, names_app. apply elem_of_app. right. cbn. apply list_elem_of_here.
  - apply lookup_insert_eq.
  - intros x Hx. apply lookup_insert_ne. intros Heq. apply Hfresh. by rewrite Heq.
Qed.

Lemma expand_einsum_simulation graph st node shapes st1 (inputs : list V) old new s :
  is_einsum node = true ->
  get_shapes graph node = Some shapes ->
  expand_einsum st node shapes = Ok st1 ->
  related st old new ->
  shapes_hold graph old ->
  run_node node inputs old = Ok s ->
  exists added,
    new_graph st1 = new_graph st ++ added
    /\ match s with
       | Next inputs1 old1 =>
           exists new1, run_nodes added inputs new = Ok (Next inputs1 new1)
                        /\ related st1 old1 new1
       | Return v => run_nodes added inputs new = Ok (Return v)
       end.
Proof.
  intros [Hop Ht]%is_einsum_true Hs Hexp Hrel Hsh Hrun.
  apply expand_einsum_ok in Hexp as (einstr & cl & pa & r & Hf & Hcl & Hpa & Hc & Henv).
  pose proof (get_shapes_nodes _ _ _ Hs) as Hnodes.
  unfold first_arg in Hf. unfold get_shapes in Hs.
  destruct (args node) as [|e0 ops] eqn:Hargs; [discriminate|]. injection Hf as ->.
  cbn [tail] in Hnodes, Hs.
  destruct (contract_path_string _ _ _ Hcl) as [str ->].
  (* the old run *)
  unfold run_node in Hrun. rewrite Hargs, Hop in Hrun.
  apply rbind_ok in Hrun as (a & Ha & Hrun). apply rbind_ok in Hrun as (kw & Hkw & Hrun).
  apply rbind_ok in Hrun as (v & Hv & [= <-]).
  rewrite (einsum_no_kwargs _ _ _ _ Ht Hv) in Hv.
  cbn in Ha. apply rbind_ok in Ha as (lv & Hlv & [= <-]).
  change (mapR (map_arg (fetch old)) ops) with (map_args (fetch old) ops) in Hlv.
  destruct (nodes_fetch _ _ _ Hnodes Hlv) as (vs & -> & Hvs).
  (* the operands given to the expander *)
  apply proxy_args_tail in Hpa. cbn [tail] in Hpa.
  rewrite (proxy_args_map_args _ _ Hnodes) in Hpa.
  pose proof (map_args_fetch_related _ _ _ _ _ _ Hrel Hlv Hpa) as Hnew.
  assert (Hin : forall a k, a ∈ tail pa -> k ∈ arg_refs a -> k ∈ names (new_graph st)).
  { intros a k Ha Hk.
    assert (Hk' : k ∈ concat (map arg_refs (tail pa)))
      by (apply operand_refs_concat; eauto).
    destruct (map_args_refs _ _ _ _ Hpa Hk') as (k0 & Hk0 & Hek0).
    destruct (map_args_refs_image _ _ _ _ Hlv Hk0) as (v0 & Hv0%fetch_ok & _).
    destruct (Hrel _ _ Hv0) as (r0 & Hr0 & Hr0in & _). congruence. }
  destruct (core_contract_appends _ _ _ _ _ Hc) as [added Hadd].
  exists added. split; [exact Hadd|].
  rewrite Hadd in Hc.
  destruct (core_contract_sound (target node) str shapes cl (tail pa) (new_graph st)
              added r Ht Hcl Hc inputs new vs v Hnew
              (operand_shapes _ _ _ _ _ Hsh Hvs Hs) Hv)
    as (new1 & Hrun1 & Hr & Hframe).
  exists new1. split; [exact Hrun1|].
  eapply related_insert; [exact Hrel|exact Henv|..].
  - intros x Hx. rewrite Hadd, names_app. apply elem_of_app. by left.
  - rewrite <- Hadd in Hc. by eapply core_contract_result.
  - exact Hr.
  - exact Hframe.
Qed.

Lemma process_node_simulation graph st node w st1 (inputs : list V) old new s :
  process_node graph st node = (w, Ok st1) ->
  related st old new ->
  shapes_hold graph old ->
  run_node node inputs old = Ok s ->
  exists added,
    new_graph st1 = new_graph st ++ added
    /\ match s with
       | Next inputs1 old1 =>
           exists new1, run_nodes added inputs new = Ok (Next inputs1 new1)
                        /\ related st1 old1 new1
       | Return v => run_nodes added inputs new = Ok (Return v)
       end.
Proof.
  intros [(He & _ & shapes & Hs & H) | [(_ & _ & _ & H) | (_ & _ & H)]]%process_node_ok
    Hrel Hsh Hrun.
  - by eapply expand_einsum_simulation.
  - by eapply copied_simulation.
  - by eapply copied_simulation.
Qed.

Lemma shapes_hold_next graph n (inputs : list V) old inputs1 old1 :
  shapes_hold graph old ->
  run_node n inputs old = Ok (Next inputs1 old1) ->
  shape_agrees graph (name n) old1 = true ->
  shapes_hold graph old1.
Proof.
  intros Hsh (v & ->)%run_node_next Hn k.
  destruct (decide (k = name n)) as [->|Hne]; [exact Hn|].
  specialize (Hsh k). unfold shape_agrees in *. by rewrite lookup_insert_ne.
Qed.

Lemma process_nodes_simulation graph nodes st w st' (inputs : list V) old new s :
  process_nodes graph nodes st = (w, Ok st') ->
  related st old new ->
  shapes_hold graph old ->
  shapes_match_from graph nodes inputs old = true ->
  run_nodes nodes inputs old = Ok s ->
  exists added,
    new_graph st' = new_graph st ++ added
    /\ match s with
       | Next inputs' old' =>
           exists new', run_nodes added inputs new = Ok (Next inputs' new')
                        /\ related st' old' new'
       | Return v => run_nodes added inputs new = Ok (Return v)
       end.
Proof.
  revert st w inputs old new. induction nodes as [|n nodes IH];
    intros st w inputs old new; cbn [process_nodes run_nodes shapes_match_from].
  - intros [= _ <-] Hrel _ _ [= <-]. exists []. split; [by rewrite app_nil_r|].
    exists new. by split.
  - intros (w1 & st1 & w2 & H1 & H2 & _)%mbind_ok Hrel Hsh Hmatch Hrun.
    apply rbind_ok in Hrun as (s1 & Hs1 & Hrun). rewrite Hs1 in Hmatch.
    destruct (process_node_simulation _ _ _ _ _ _ _ _ _ H1 Hrel Hsh Hs1)
      as (added1 & Hg1 & Hsim1).
    destruct s1 as [inputs1 old1|v].
    + destruct Hsim1 as (new1 & Hrun1 & Hrel1).
      apply andb_prop in Hmatch as [Hn Hmatch].
      destruct (IH _ _ _ _ _ H2 Hrel1 (shapes_hold_next _ _ _ _ _ _ Hsh Hs1 Hn)
                  Hmatch Hrun) as (added2 & Hg2 & Hsim2).
      exists (added1 ++ added2). split; [by rewrite Hg2, Hg1, (assoc_L (++))|].
      rewrite run_nodes_app, Hrun1. exact Hsim2.
    + injection Hrun as <-.
      destruct (process_nodes_prefix _ _ _ _ _ H2) as [added2 Hg2].
      exists (added1 ++ added2). split; [by rewrite Hg2, Hg1, (assoc_L (++))|].
      by rewrite run_nodes_app, Hsim1.
Qed.

(** C1. Given collaborators that keep the laws and whose expansions have
    the value of the einsum call, on inputs for which the values of the nodes
    have the annotated shapes: if running the input graph gives a result,
    running the graph returned by the pass gives the same result. *)
Theorem rewrite_equivalent graph w G' (inputs : list V) result :
  optimize_einsums_graph graph = (w, Ok G') ->
  shapes_match graph inputs = true ->
  execute graph inputs = Ok result ->
  execute G' inputs = Ok result.
Proof.
  intros (st & Hloop & <- & _)%optimize_einsums_graph_ok Hmatch Hexec.
  unfold execute in *. apply rbind_ok in Hexec as (s & Hrun & Hres).
  destruct (process_nodes_simulation graph graph initial_state w st inputs ∅ ∅ s Hloop)
    as (added & Hg & Hsim); [| |exact Hmatch|exact Hrun|].
  - intros k v. by rewrite lookup_empty.
  - intros k. unfold shape_agrees. by rewrite lookup_empty.
  - cbn in Hg. rewrite Hg. destruct s as [inputs' old'|v].
    + destruct Hsim as (new' & -> & _). exact Hres.
    + rewrite Hsim. exact Hres.
Qed.

End Equivalence.

(** The sample collaborators are sound for the sample values. *)
Lemma scalar_einsum_variadic t str (vs : list Z) :
  t ∈ _EINSUM_FUNCS ->
  Sample.scalar_call call_function t (ALit (LStr str) :: (ANode <$> vs)) [] =
  Sample.product (ANode <$> vs).
Proof.
  intros Ht. unfold Sample.scalar_call. rewrite (bool_decide_eq_true_2 _ Ht).
  by destruct vs as [|v1 [|v2 vs]].
Qed.

Global Instance sample_sound :
  SoundExpansion (Ext := Sample.externals) (Sem := Sample.scalars).
Proof.
  split.
  - intros t a kw v _. cbn. unfold Sample.scalar_call. by destruct kw.
  - intros einstr shapes cl. cbn.
    destruct einstr as [|[s| | |]| | | |]; cbn; try discriminate. eauto.
  - intros t s shapes cl operands g added r Ht Hcl Hc inputs values vs v Hops _ Hv.
    cbn in Hcl, Hc. unfold Sample.path in Hcl.
    change (Sample.scalar_call call_function t (ALit (LStr s) :: (ANode <$> vs)) []
            = Ok v) in Hv.
    destruct (bool_decide _); [|discriminate]. injection Hcl as <-.
    cbn in Hc. injection Hc as Hadd <-. apply app_inv_head in Hadd as <-.
    rewrite (scalar_einsum_variadic _ _ _ Ht) in Hv.
    exists (<[Sample.unique_name (names g) "einsum" := v]> values).
    split; [|split].
    + rewrite run_nodes_singleton. unfold run_node. cbn.
      change (mapR (map_arg (fetch values)) operands)
        with (map_args (fetch values) operands).
      rewrite Hops. cbn. rewrite Hv. reflexivity.
    + apply lookup_insert_eq.
    + intros k Hk. apply lookup_insert_ne. intros Heq.
      apply (unique_name_fresh (names g) "einsum"). by rewrite Heq.
Qed.

Lemma rewrite_equivalent_witness :
  execute (Sem := Sample.scalars) Tests.scalar_optimized [2; 3]%Z = Ok (ANode 8%Z).
Proof.
  refine (rewrite_equivalent (Ext := Sample.externals) (Sem := Sample.scalars)
    Tests.scalar_graph [] Tests.scalar_optimized [2; 3]%Z (ANode 8%Z) _ _ _).
  - vm_compute. reflexivity.
  - vm_compute. reflexivity.
  - vm_compute. reflexivity.
Defined.

(** * Further properties of the pass *)

(** ** The diagnostics, exactly *)

Section Diagnostics.
Context `{Ext : Externals}.

Lemma process_node_warning graph st node w st' :
  process_node graph st node = (w, Ok st') ->
  w = if lacks_shape graph node then [lacked_shape_warning node] else [].
Proof.
  unfold lacks_shape.
  intros [(He & -> & shapes & Hs & _) | [(He & -> & Hs & _) | (He & -> & _)]]%process_node_ok;
    rewrite He; [by rewrite Hs | by rewrite Hs | reflexivity].
Qed.

Lemma process_nodes_warnings_exact graph nodes st w st' :
  process_nodes graph nodes st = (w, Ok st') ->
  w = lacked_shape_warning <$> List.filter (lacks_shape graph) nodes.
Proof.
  revert st w. induction nodes as [|n nodes IH]; intros st w; cbn [process_nodes List.filter].
  - by intros [= <- _].
  - intros (w1 & st1 & w2 & H1 & H2 & ->)%mbind_ok.
    rewrite (process_node_warning _ _ _ _ _ H1), (IH _ _ H2).
    by destruct (lacks_shape graph n).
Qed.

(** X1. When the pass returns a graph, its warnings are, in the order of the
    graph, exactly one for each einsum call that has an operand without
    shape, and none for any other node. *)
Theorem diagnostics_exact graph w G' :
  optimize_einsums_graph graph = (w, Ok G') ->
  w = lacked_shape_warning <$> List.filter (lacks_shape graph) graph.
Proof.
  intros (st & Hloop & _)%optimize_einsums_graph_ok.
  by eapply process_nodes_warnings_exact.
Qed.

End Diagnostics.

Lemma diagnostics_exact_witness :
  [lacked_shape_warning
     (Tests.mk "einsum_1" call_function Tests.einsum
        [ALit (LStr "ij,jk->ik"); ANode "x"; ANode "y"] None);
   lacked_shape_warning
     (Tests.mk "einsum_2" call_function Tests.einsum
        [ALit (LStr "ik,ij->i"); ANode "einsum_1"; ANode "x"] None)]
  = lacked_shape_warning <$> List.filter (lacks_shape Tests.fusable) Tests.fusable.
Proof.
  refine (diagnostics_exact (Ext := Sample.externals) Tests.fusable _ Tests.fusable _).
  vm_compute. reflexivity.
Defined.

(** ** The environment *)

Section Environment.
Context `{Laws : ExternalLaws}.

(** X2. When the loop is over, [env] has an entry for the name of every node
    of the input graph and for nothing else, and every entry is a node of
    the new graph. *)
Theorem env_keys_and_values graph w st :
  optimize_einsums_loop graph = (w, Ok st) ->
  (forall k, is_Some (env st !! k) <-> k ∈ names graph)
  /\ (forall k r, env st !! k = Some r -> r ∈ names (new_graph st)).
Proof.
  intros Hloop. split.
  - intros k. split.
    + intros Hk. destruct (process_nodes_env_keys _ _ _ _ _ _ Hloop Hk) as [Hi|]; [|done].
      cbn in Hi. rewrite lookup_empty in Hi. by destruct Hi.
    + intros Hk. eapply process_nodes_env_dom; [exact Hloop | by right].
  - by destruct (process_nodes_consistent _ _ _ _ _ initial_state_consistent Hloop).
Qed.

End Environment.

Lemma env_keys_and_values_witness :
  is_Some (list_to_map (M := gmap string string)
    [("x", "x"); ("y", "y"); ("einsum_1", "einsum"); ("einsum_2", "einsum0");
     ("output", "output")] !! "einsum_1").
Proof.
  refine (proj2 (proj1 (env_keys_and_values (Ext := Sample.externals)
    Tests.fusable_shaped []
    {| new_graph := Tests.fusable_optimized;
       env := list_to_map
         [("x", "x"); ("y", "y"); ("einsum_1", "einsum"); ("einsum_2", "einsum0");
          ("output", "output")] |} _) "einsum_1") _).
  - vm_compute. reflexivity.
  - cbn. repeat constructor.
Defined.

(** ** Failures of the pass itself *)

Lemma mapR_lookup_cases {A B} (f : A -> Result B) (refs : A -> list string)
    (e : gmap string string) l :
  Forall (fun x => (exists y, f x = Ok y)
                   \/ exists k, k ∈ refs x /\ e !! k = None /\ f x = Raise (KeyError k)) l ->
  (exists l', mapR f l = Ok l')
  \/ exists k, k ∈ concat (map refs l) /\ e !! k = None /\ mapR f l = Raise (KeyError k).
Proof.
  induction 1 as [|x l Hx _ IH]; cbn.
  - left. eauto.
  - destruct Hx as [[y Hy] | (k & Hk & He & Hr)].
    + rewrite Hy. cbn. destruct IH as [[l' Hl] | (k & Hk & He & Hr)].
      * rewrite Hl. left. eauto.
      * rewrite Hr. right. exists k. split; [apply elem_of_app; by right | done].
    + rewrite Hr. right. exists k. split; [apply elem_of_app; by left | done].
Qed.

(** Taking an argument through [env] gives an argument, or raises the
    [KeyError] of a reference that has no entry. *)
Lemma map_arg_lookup_cases (e : gmap string string) a :
  (exists a', map_arg (env_lookup e) a = Ok a')
  \/ exists k, k ∈ arg_refs a /\ e !! k = None
               /\ map_arg (env_lookup e) a = Raise (KeyError k).
Proof.
  induction a as [k|l|xs IH|xs IH|kvs IH|a1 a2 a3 IH1 IH2 IH3]
    using Argument_nested_ind; cbn.
  - unfold env_lookup. destruct (e !! k) as [r|] eqn:Hk.
    + left. eauto.
    + right. exists k. split; [apply list_elem_of_here | done].
  - left. eauto.
  - destruct (mapR_lookup_cases _ arg_refs e xs IH) as [[l' ->] | (k & ? & ? & ->)];
      [left; eauto | right; eauto].
  - destruct (mapR_lookup_cases _ arg_refs e xs IH) as [[l' ->] | (k & ? & ? & ->)];
      [left; eauto | right; eauto].
  - match goal with
    | |- (exists a', mapR ?f kvs ≫= _ = _) \/ _ =>
        destruct (mapR_lookup_cases f (fun kv => arg_refs (snd kv)) e kvs)
          as [[l' ->] | (k & ? & ? & ->)]; [|left; eauto | right; eauto]
    end.
    eapply Forall_impl; [exact IH|]. cbn. intros [k v]. cbn.
    intros [[v' ->] | (k0 & ? & ? & ->)]; [left; eauto | right; eauto].
  - destruct IH1 as [[b1 ->] | (k & ? & ? & ->)]; cbn;
      [|right; exists k; rewrite !elem_of_app; auto].
    destruct IH2 as [[b2 ->] | (k & ? & ? & ->)]; cbn;
      [|right; exists k; rewrite !elem_of_app; auto].
    destruct IH3 as [[b3 ->] | (k & ? & ? & ->)]; cbn;
      [left; eauto | right; exists k; rewrite !elem_of_app; auto].
Qed.

Section OwnFailures.
Context `{Laws : ExternalLaws}.

(** Copying a node that references a name without entry in [env] raises the
    [KeyError] of such a name. *)
Lemma copied_missing st node k :
  k ∈ node_refs node -> env st !! k = None ->
  exists k', k' ∈ node_refs node /\ env st !! k' = None
             /\ copied st node = Raise (KeyError k').
Proof.
  intros Hk Hnone. unfold copied, node_copy.
  destruct (mapR_lookup_cases (map_arg (env_lookup (env st))) arg_refs (env st) (args node))
    as [[a Ha] | (k' & Hk' & He & Hr)].
  { apply Forall_forall. intros x _. apply map_arg_lookup_cases. }
  - destruct (mapR_lookup_cases
      (fun kv : string * Argument string =>
         match kv with (k0, v) => v' ← map_arg (env_lookup (env st)) v; Ok (k0, v') end)
      (fun kv => arg_refs (snd kv)) (env st) (kwargs node))
      as [[kw Hkw] | (k' & Hk' & He & Hr)].
    { apply Forall_forall. intros [k0 v] _. cbn.
      destruct (map_arg_lookup_cases (env st) v) as [[v' ->] | (k1 & ? & ? & ->)];
        [left; eauto | right; eauto]. }
    + exfalso. unfold node_refs in Hk. apply elem_of_app in Hk as [Hk|Hk].
      * destruct (map_args_refs_image _ _ _ _ Ha Hk) as (r & Hr%env_lookup_ok & _).
        congruence.
      * destruct (map_kwargs_refs_image _ _ _ _ Hkw Hk) as (r & Hr%env_lookup_ok & _).
        congruence.
    + exists k'. split; [apply elem_of_app; by right|]. split; [exact He|].
      unfold map_args, map_kwargs. rewrite Ha. cbn. by rewrite Hr.
  - exists k'. split; [apply elem_of_app; by left|]. split; [exact He|].
    unfold map_args. by rewrite Hr.
Qed.

(** X3. A node that is not an einsum call and takes as argument a node that
    does not come before it makes the pass raise [KeyError], for a name the
    node references that no earlier node has; the warnings are those
    emitted so far, and no graph is returned. *)
Theorem undefined_reference_raises pre node post w st k :
  let graph := pre ++ node :: post in
  process_nodes graph pre initial_state = (w, Ok st) ->
  is_einsum node = false ->
  k ∈ node_refs node -> k ∉ names pre ->
  exists k', k' ∈ node_refs node /\ (k' ∉ names pre)
             /\ optimize_einsums_graph graph = (w, Raise (KeyError k')).
Proof.
  intros graph Hpre Hne Hk Hnot.
  assert (Hkeys : forall x, x ∉ names pre -> env st !! x = None).
  { intros x Hx. apply eq_None_not_Some. intros Hs.
    destruct (process_nodes_env_keys _ _ _ _ _ _ Hpre Hs) as [Hi|]; [|done].
    cbn in Hi. rewrite lookup_empty in Hi. by destruct Hi. }
  destruct (copied_missing st node k Hk (Hkeys _ Hnot)) as (k' & Hk' & He & Hr).
  exists k'. split; [exact Hk'|]. split.
  - intros Hin. assert (is_Some (env st !! k')) as [r Hsome]; [|congruence].
    eapply process_nodes_env_dom; [exact Hpre | by right].
  - rewrite <- (app_nil_r w). apply step_error_propagates with (st := st); [exact Hpre|].
    by rewrite (process_node_ordinary _ _ _ Hne), Hr.
Qed.

(** X4. An einsum call without any positional argument makes the pass raise
    [IndexError]: there is no operand whose shape could be missing, so
    there is no warning and no fallback, and [node.args[0]] fails. *)
Theorem einsum_without_arguments_raises pre node post w st :
  let graph := pre ++ node :: post in
  process_nodes graph pre initial_state = (w, Ok st) ->
  is_einsum node = true ->
  args node = [] ->
  optimize_einsums_graph graph = (w, Raise IndexError).
Proof.
  intros graph Hpre He Hargs.
  rewrite <- (app_nil_r w). apply step_error_propagates with (st := st); [exact Hpre|].
  rewrite (process_node_expand _ _ _ [] He) by (unfold get_shapes; by rewrite Hargs).
  unfold expand_einsum, first_arg. by rewrite Hargs.
Qed.

End OwnFailures.

Lemma undefined_reference_raises_witness :
  exists k', k' ∈ node_refs (Tests.mk "add_1" call_function (Callable "_operator.add")
                              [ANode "x"; ANode "neg_1"] None)
             /\ (k' ∉ names (take 1 Tests.out_of_order))
             /\ optimize_einsums_graph (Ext := Sample.externals) Tests.out_of_order =
                ([], Raise (KeyError k')).
Proof.
  refine (undefined_reference_raises (Ext := Sample.externals)
    (take 1 Tests.out_of_order)
    (Tests.mk "add_1" call_function (Callable "_operator.add")
       [ANode "x"; ANode "neg_1"] None)
    (drop 2 Tests.out_of_order) []
    {| new_graph := take 1 Tests.out_of_order; env := <["x" := "x"]> ∅ |}
    "neg_1" _ _ _ _).
  - vm_compute. reflexivity.
  - vm_compute. reflexivity.
  - cbn. repeat constructor.
  - cbn. intros Hin. apply list_elem_of_singleton in Hin. discriminate.
Defined.

Lemma einsum_without_arguments_raises_witness :
  optimize_einsums_graph (Ext := Sample.externals) Tests.no_arguments =
  ([], Raise IndexError).
Proof.
  refine (einsum_without_arguments_raises (Ext := Sample.externals)
    (take 1 Tests.no_arguments)
    (Tests.mk "einsum_1" call_function (Callable "torch.einsum") [] None)
    (drop 2 Tests.no_arguments) []
    {| new_graph := take 1 Tests.no_arguments; env := <["x" := "x"]> ∅ |} _ _ _).
  - vm_compute. reflexivity.
  - vm_compute. reflexivity.
  - reflexivity.
Defined.

(** ** Nodes that are copied *)

Lemma lint_from_without_shape seen g :
  lint_from seen (without_shape <$> g) = lint_from seen g.
Proof.
  revert seen. induction g as [|n g IH]; intros seen; [reflexivity|].
  cbn [fmap list_fmap lint_from].
  change (node_refs (without_shape n)) with (node_refs n).
  change (name (without_shape n)) with (name n).
  destruct (mapR (check_arg seen) (node_refs n)); cbn; [|reflexivity].
  destruct (bool_decide (name n ∈ seen)); [reflexivity | apply IH].
Qed.

Lemma names_without_shape g : names (without_shape <$> g) = names g.
Proof. unfold names. rewrite <- list_fmap_compose. reflexivity. Qed.

Lemma without_shape_id g :
  Forall (fun n => shape n = None) g -> without_shape <$> g = g.
Proof.
  induction 1 as [|n g Hn _ IH]; [reflexivity|]. cbn. rewrite IH. f_equal.
  destruct n. cbn in *. by subst.
Qed.

Section Verbatim.
Context `{Ext : Externals}.

Lemma copied_verbatim st node :
  (forall k, k ∈ node_refs node -> env st !! k = Some k) ->
  create_name (names (new_graph st)) (name node) = name node ->
  copied st node =
  Ok {| new_graph := new_graph st ++ [without_shape node];
        env := <[name node := name node]> (env st) |}.
Proof.
  intros He Hname. unfold copied, node_copy, create_node.
  rewrite map_args_id by (intros k Hk; apply He, elem_of_app; by left). cbn.
  rewrite map_kwargs_id by (intros k Hk; apply He, elem_of_app; by right). cbn.
  by rewrite Hname.
Qed.

Lemma process_nodes_verbatim graph nodes seen st :
  Forall (fun n => is_einsum n = true -> get_shapes graph n = None) nodes ->
  lint_from seen nodes = Ok tt ->
  names_kept_from (names (new_graph st)) nodes = true ->
  (forall x, x ∈ seen <-> x ∈ names (new_graph st)) ->
  (forall k, k ∈ seen -> env st !! k = Some k) ->
  exists st',
    process_nodes graph nodes st =
      (lacked_shape_warning <$> List.filter is_einsum nodes, Ok st')
    /\ new_graph st' = new_graph st ++ (without_shape <$> nodes).
Proof.
  revert seen st.
  induction nodes as [|n nodes IH]; intros seen st Hun Hlint Hkept Hseen Henv.
  - exists st. split; [reflexivity | by rewrite app_nil_r].
  - cbn [names_kept_from] in Hkept. apply andb_prop in Hkept as [Hname Hkept].
    apply bool_decide_eq_true in Hname.
    apply Forall_cons in Hun as [Hn Hun].
    apply lint_from_cons in Hlint as (Hrefs & Hfresh & Hlint).
    rewrite Forall_forall in Hrefs.
    assert (Hcopy : copied st n =
              Ok {| new_graph := new_graph st ++ [without_shape n];
                    env := <[name n := name n]> (env st) |}).
    { apply copied_verbatim; [by auto|exact Hname]. }
    set (st1 := {| new_graph := new_graph st ++ [without_shape n];
                   env := <[name n := name n]> (env st) |}) in *.
    destruct (IH (name n :: seen) st1 Hun Hlint) as (st' & Hrun & Hg).
    { cbn. by rewrite names_app. }
    { intros x. cbn. rewrite names_app, elem_of_cons, elem_of_app, Hseen. cbn.
      rewrite list_elem_of_singleton. tauto. }
    { intros k [->|Hk]%elem_of_cons; cbn.
      - apply lookup_insert_eq.
      - rewrite lookup_insert_ne; [by apply Henv|]. intros Heq.
        apply Hfresh. by rewrite Heq. }
    exists st'. split.
    + cbn [process_nodes List.filter]. destruct (is_einsum n) eqn:He.
      * rewrite (process_node_fallback graph st n He) by auto.
        rewrite Hcopy. cbn [mbind M_bind]. rewrite Hrun. reflexivity.
      * rewrite (process_node_ordinary graph st n He).
        rewrite Hcopy. cbn [mbind M_bind]. rewrite Hrun. reflexivity.
    + rewrite Hg. cbn. by rewrite <- (assoc_L (++)).
Qed.

Lemma optimize_verbatim graph :
  names_kept graph = true ->
  lint graph = Ok tt ->
  Forall (fun n => is_einsum n = true -> get_shapes graph n = None) graph ->
  optimize_einsums_graph graph =
    (lacked_shape_warning <$> List.filter is_einsum graph, Ok (without_shape <$> graph)).
Proof.
  intros Hfree Hlint Hun.
  destruct (process_nodes_verbatim graph graph [] initial_state Hun Hlint)
    as (st' & Hrun & Hg).
  { exact Hfree. }
  { intros x. cbn. reflexivity. }
  { by intros k ?%elem_of_nil. }
  cbn in Hg. unfold optimize_einsums_graph. rewrite Hrun. cbn [mbind M_bind].
  rewrite Hg. unfold lint. rewrite lint_from_without_shape.
  fold (lint graph). rewrite Hlint. cbn. by rewrite app_nil_r.
Qed.

(** X5. On a graph that passes [lint] and has no einsum call, whatever its
    shape annotations, the pass returns without a warning the same nodes, in
    the same order and under the same names, with the shape attributes
    dropped.  Of the naming it is only used that the nodes of this graph are
    given their names again when they are copied in order. *)
Theorem graph_without_einsum_copied graph :
  names_kept graph = true ->
  lint graph = Ok tt ->
  Forall (fun n => is_einsum n = false) graph ->
  optimize_einsums_graph graph = ([], Ok (without_shape <$> graph)).
Proof.
  intros Hfree Hlint Hno.
  rewrite (optimize_verbatim graph Hfree Hlint).
  - assert (List.filter is_einsum graph = []) as ->; [|reflexivity].
    clear Hlint Hfree. induction Hno as [|n g Hn _ IH]; [reflexivity|].
    cbn. rewrite Hn. exact IH.
  - eapply Forall_impl; [exact Hno|]. cbn. intros n Hn. congruence.
Qed.

End Verbatim.

Lemma graph_without_einsum_copied_witness :
  optimize_einsums_graph (Ext := Sample.externals) (take 2 Tests.fusable_shaped) =
  ([], Ok (without_shape <$> take 2 Tests.fusable_shaped)).
Proof.
  apply (graph_without_einsum_copied (Ext := Sample.externals)).
  - vm_compute. reflexivity.
  - vm_compute. reflexivity.
  - cbn. repeat (apply Forall_cons_2; [reflexivity|]). apply Forall_nil_2.
Defined.

(** ** The shapes of the output *)

Section OutputShapes.
Context `{Ext : Externals}.

Lemma process_nodes_no_shapes graph nodes st w st' :
  expander_sets_no_shape ->
  Forall (fun n => shape n = None) (new_graph st) ->
  process_nodes graph nodes st = (w, Ok st') ->
  Forall (fun n => shape n = None) (new_graph st').
Proof.
  intros Hlaw. revert st w. induction nodes as [|n nodes IH]; intros st w Hst;
    cbn [process_nodes].
  - by intros [= _ <-].
  - intros (w1 & st1 & w2 & H1 & H2 & _)%mbind_ok. eapply IH; [|exact H2].
    apply process_node_ok in H1
      as [(_ & _ & shapes & _ & H) | [(_ & _ & _ & H) | (_ & _ & H)]].
    + apply expand_einsum_ok in H as (einstr & cl & pa & r & _ & _ & _ & Hc & _).
      by eapply Hlaw.
    + apply copied_ok in H as (node' & Hcopy & _ & -> & _).
      apply Forall_app. split; [exact Hst|]. constructor; [|constructor].
      apply Hcopy.
    + apply copied_ok in H as (node' & Hcopy & _ & -> & _).
      apply Forall_app. split; [exact Hst|]. constructor; [|constructor].
      apply Hcopy.
Qed.

(** X6. No node of the graph returned by the pass has a shape attribute:
    the annotations of the input graph are not carried over. *)
Theorem output_has_no_shapes graph w G' :
  expander_sets_no_shape ->
  optimize_einsums_graph graph = (w, Ok G') ->
  Forall (fun n => shape n = None) G'.
Proof.
  intros Hlaw (st & Hloop & <- & _)%optimize_einsums_graph_ok.
  eapply process_nodes_no_shapes; [exact Hlaw| |exact Hloop]. constructor.
Qed.

(** X7. Running the pass again on the graph it returned changes nothing:
    every einsum call of that graph (each with at least one operand) is
    warned about and copied, so that shapes have to be propagated again
    before a second pass can expand anything.  Of the naming it is only used
    that the nodes of the graph returned are given their names again when
    they are copied in order. *)
Theorem second_pass_only_warns graph w G' :
  expander_sets_no_shape ->
  names_kept G' = true ->
  optimize_einsums_graph graph = (w, Ok G') ->
  Forall (fun n => is_einsum n = true -> tail (args n) <> []) G' ->
  optimize_einsums_graph G' =
    (lacked_shape_warning <$> List.filter is_einsum G', Ok G').
Proof.
  intros Hlaw Hfree (st & Hloop & <- & Hlint)%optimize_einsums_graph_ok Hops.
  assert (Hnone : Forall (fun n => shape n = None) (new_graph st)).
  { eapply process_nodes_no_shapes; [exact Hlaw| |exact Hloop]. constructor. }
  rewrite (optimize_verbatim (new_graph st) Hfree Hlint).
  - by rewrite (without_shape_id _ Hnone).
  - eapply Forall_impl; [exact Hops|]. cbn. intros n Hn He.
    apply unshaped_get_shapes; auto.
Qed.

End OutputShapes.

Lemma sample_expander_sets_no_shape :
  expander_sets_no_shape (Ext := Sample.externals).
Proof.
  intros operands cl. revert operands. induction cl as [|equation cl IH];
    intros operands g g' r; cbn.
  - destruct operands as [|[k| | | | |] ?]; try discriminate. by intros [= <- _].
  - intros H Hg. eapply IH; [exact H|].
    apply Forall_app. split; [exact Hg|]. by repeat constructor.
Qed.

Lemma output_has_no_shapes_witness :
  Forall (fun n => shape n = None) Tests.fusable_optimized.
Proof.
  refine (output_has_no_shapes (Ext := Sample.externals) Tests.fusable_shaped [] _
    sample_expander_sets_no_shape _).
  vm_compute. reflexivity.
Defined.

Lemma second_pass_only_warns_witness :
  optimize_einsums_graph (Ext := Sample.externals) Tests.fusable_optimized =
  (lacked_shape_warning <$> List.filter is_einsum Tests.fusable_optimized,
   Ok Tests.fusable_optimized).
Proof.
  refine (second_pass_only_warns (Ext := Sample.externals) Tests.fusable_shaped [] _
    sample_expander_sets_no_shape _ _ _).
  - vm_compute. reflexivity.
  - vm_compute. reflexivity.
  - unfold Tests.fusable_optimized.
    repeat (apply Forall_cons_2;
      [first [intros _; cbn; discriminate | intros H; vm_compute in H; discriminate H]|]).
    apply Forall_nil_2.
Defined.

(** ** The parameters of the graph *)

Lemma placeholders_app g1 g2 :
  placeholders (g1 ++ g2) = placeholders g1 ++ placeholders g2.
Proof. unfold placeholders. apply List.filter_app. Qed.

Section Parameters.
Context `{Ext : Externals}.

Lemma process_nodes_placeholders graph nodes st w st' :
  expander_keeps_placeholders ->
  process_nodes graph nodes st = (w, Ok st') ->
  (fun n => (target n, type n)) <$> placeholders (new_graph st') =
  ((fun n => (target n, type n)) <$> placeholders (new_graph st))
  ++ ((fun n => (target n, type n)) <$> placeholders nodes).
Proof.
  intros Hlaw. revert st w. induction nodes as [|n nodes IH]; intros st w;
    cbn [process_nodes].
  - intros [= _ <-]. by rewrite app_nil_r.
  - intros (w1 & st1 & w2 & H1 & H2 & _)%mbind_ok. rewrite (IH _ _ H2).
    change (n :: nodes) with ([n] ++ nodes).
    rewrite (placeholders_app [n]), fmap_app, (assoc_L (++)). f_equal.
    assert (Hcopy : forall st2, copied st n = Ok st2 ->
      (fun n => (target n, type n)) <$> placeholders (new_graph st2) =
      ((fun n => (target n, type n)) <$> placeholders (new_graph st))
      ++ ((fun n => (target n, type n)) <$> placeholders [n])).
    { intros st2 (node' & (Hop & Ht & Hty & _) & _ & -> & _)%copied_ok.
      rewrite placeholders_app, fmap_app. f_equal.
      unfold placeholders. cbn. rewrite Hop.
      destruct (bool_decide (op n = placeholder)); [|reflexivity].
      cbn. by rewrite Ht, Hty. }
    apply process_node_ok in H1
      as [(He & _ & shapes & _ & H) | [(_ & _ & _ & H) | (_ & _ & H)]];
      [|by apply Hcopy..].
    apply expand_einsum_ok in H as (einstr & cl & pa & r & _ & _ & _ & Hc & _).
    rewrite (Hlaw _ _ _ _ _ Hc).
    apply is_einsum_true in He as [Hop _].
    unfold placeholders at 3. cbn. rewrite Hop. cbn. by rewrite app_nil_r.
Qed.

(** X8. The graph returned by the pass has the parameters of the input
    graph: its placeholders are, in order, those of the input graph, with
    the same targets and types (the expander making no placeholder). *)
Theorem parameters_preserved graph w G' :
  expander_keeps_placeholders ->
  optimize_einsums_graph graph = (w, Ok G') ->
  (fun n => (target n, type n)) <$> placeholders G' =
  (fun n => (target n, type n)) <$> placeholders graph.
Proof.
  intros Hlaw (st & Hloop & <- & _)%optimize_einsums_graph_ok.
  by rewrite (process_nodes_placeholders _ _ _ _ _ Hlaw Hloop).
Qed.

End Parameters.

Lemma sample_expander_keeps_placeholders :
  expander_keeps_placeholders (Ext := Sample.externals).
Proof.
  intros operands cl. revert operands. induction cl as [|equation cl IH];
    intros operands g g' r; cbn.
  - destruct operands as [|[k| | | | |] ?]; try discriminate. by intros [= <- _].
  - intros H. rewrite (IH _ _ _ _ H), placeholders_app. cbn. by rewrite app_nil_r.
Qed.

Lemma parameters_preserved_witness :
  (fun n => (target n, type n)) <$> placeholders Tests.fusable_optimized =
  (fun n => (target n, type n)) <$> placeholders Tests.fusable_shaped.
Proof.
  refine (parameters_preserved (Ext := Sample.externals) Tests.fusable_shaped [] _
    sample_expander_keeps_placeholders _).
  vm_compute. reflexivity.
Defined.

(** ** The driver *)

Section ShapeIrrelevance.
Context {V : Type} `{Sem : Semantics V}.

(** Running a graph does not read the shape attributes. *)
Lemma run_nodes_without_shape g (inputs : list V) values :
  run_nodes (without_shape <$> g) inputs values = run_nodes g inputs values.
Proof.
  revert inputs values. induction g as [|n g IH]; intros inputs values; [reflexivity|].
  cbn [fmap list_fmap run_nodes].
  change (run_node (without_shape n) inputs values) with (run_node n inputs values).
  destruct (run_node n inputs values) as [[inputs' values'|v]|e]; cbn; [apply IH|done..].
Qed.

Lemma execute_same_but_shapes g g' (inputs : list V) :
  without_shape <$> g' = without_shape <$> g ->
  execute g' inputs = execute g inputs.
Proof.
  intros Heq. unfold execute.
  by rewrite <- (run_nodes_without_shape g'), Heq, run_nodes_without_shape.
Qed.

End ShapeIrrelevance.

Section DriverEquivalence.
Context `{Laws : ExternalLaws} {V : Type} `{Sem : Semantics V}.
Context {Sound : SoundExpansion} `{Oracle : ShapeOracle V} {OracleLaws : ShapeOracleLaws}.
Context {F : Type}.

(** X9. The module [optimize_einsums] returns has the root the graph came
    with and, on the example inputs, gives the result the graph of the model
    gives: the shapes the pass needs are those [ShapeProp] has just set on
    these very inputs. *)
Theorem optimize_einsums_equivalent (model : Model F) (example_inputs : list V)
    tracer w out root graph result :
  optimize_einsums model example_inputs tracer = (w, Ok out) ->
  graph_and_root model tracer = Ok (root, graph) ->
  execute graph example_inputs = Ok result ->
  exists new, out = GraphModule root new /\ execute new example_inputs = Ok result.
Proof.
  unfold optimize_einsums. intros Hopt Hgraph Hexec.
  rewrite Hgraph, mbind_lift in Hopt. cbn beta iota in Hopt. rewrite mbind_lift in Hopt.
  destruct (shape_prop graph example_inputs) as [annotated|e] eqn:Hsp; [|discriminate].
  apply mbind_ok in Hopt as (w1 & new & w2 & Hpass & [= _ <-] & _).
  exists new. split; [reflexivity|].
  rewrite <- (execute_same_but_shapes graph annotated example_inputs
                (shape_prop_only_shapes _ _ _ Hsp)) in Hexec.
  pose proof (shape_prop_shapes_match _ _ _ Hsp) as Hmatch.
  apply optimize_einsums_graph_ok in Hpass as (st & Hloop & <- & _).
  unfold execute in *. apply rbind_ok in Hexec as (s & Hrun & Hres).
  destruct (process_nodes_simulation annotated annotated initial_state w1 st
              example_inputs ∅ ∅ s Hloop) as (added & Hg & Hsim);
    [| |exact Hmatch|exact Hrun|].
  - intros k v. by rewrite lookup_empty.
  - intros k. unfold shape_agrees. by rewrite lookup_empty.
  - cbn in Hg. rewrite Hg. destruct s as [inputs' old'|v].
    + destruct Hsim as (new' & -> & _). exact Hres.
    + rewrite Hsim. exact Hres.
Qed.

End DriverEquivalence.

Lemma scalar_shapes_match_from graph nodes (inputs : list Z) values :
  (forall k vs, shape_agrees (Sem := Sample.scalars) graph k vs = true) ->
  shapes_match_from (Sem := Sample.scalars) graph nodes inputs values = true.
Proof.
  intros Hall. revert inputs values. induction nodes as [|n nodes IH];
    intros inputs values; cbn [shapes_match_from]; [reflexivity|].
  destruct (run_node n inputs values) as [[inputs' values'|v]|e]; [|reflexivity..].
  by rewrite Hall, IH.
Qed.

Global Instance sample_oracle_laws :
  ShapeOracleLaws (Sem := Sample.scalars) (Oracle := SampleOracle.oracle).
Proof.
  split.
  - intros g inputs g'. cbn. unfold SampleOracle.scalar_shape_prop.
    destruct (execute g inputs); cbn; [|discriminate]. intros [= <-].
    rewrite <- list_fmap_compose. reflexivity.
  - intros g inputs g'. cbn. unfold SampleOracle.scalar_shape_prop.
    destruct (execute g inputs); cbn; [|discriminate]. intros [= <-].
    apply scalar_shapes_match_from. intros k vs. unfold shape_agrees.
    destruct (vs !! k) as [v|]; [|reflexivity].
    destruct (find_node _ k) as [n|] eqn:Hn; [|reflexivity]. cbn.
    apply find_node_elem, list_elem_of_fmap in Hn as (n0 & -> & _). reflexivity.
Qed.

Lemma optimize_einsums_equivalent_witness :
  exists new,
    GraphModule (Plain tt) Tests.scalar_optimized = GraphModule (Plain tt) new
    /\ execute (Sem := Sample.scalars) new [2; 3]%Z = Ok (ANode 8%Z).
Proof.
  refine (optimize_einsums_equivalent (Ext := Sample.externals) (Sem := Sample.scalars)
    (Oracle := SampleOracle.oracle) (Plain tt) [2; 3]%Z
    (fun _ : unit => Ok (tt, Tests.unshaped Tests.scalar_graph))
    [] _ (Plain tt) (Tests.unshaped Tests.scalar_graph) (ANode 8%Z) _ _ _).
  - vm_compute. reflexivity.
  - reflexivity.
  - vm_compute. reflexivity.
Defined.

(** ** Which calls are warned about after shape propagation *)

Lemma find_node_None g k : find_node g k = None -> k ∉ names g.
Proof.
  unfold find_node. intros Hnone (n & -> & Hn)%list_elem_of_fmap.
  apply list_elem_of_In in Hn.
  pose proof (find_none _ _ Hnone n Hn) as Hb. cbn in Hb.
  by apply bool_decide_eq_false_1 in Hb.
Qed.

Lemma non_node_operand_get_shapes graph node :
  has_non_node_operand node = true -> get_shapes graph node = None.
Proof.
  unfold has_non_node_operand, get_shapes.
  intros (a & Ha & Hnon)%existsb_exists. apply list_elem_of_In in Ha.
  apply eq_None_not_Some. rewrite mapM_is_Some, Forall_forall. intros Hall.
  specialize (Hall a Ha). destruct a; cbn in *; try discriminate; by destruct Hall.
Qed.

Lemma annotated_get_shapes_None graph node :
  Forall (fun n => is_Some (shape n)) graph ->
  get_shapes graph node = None ->
  has_non_node_operand node = true
  \/ exists k, ANode k ∈ tail (args node) /\ k ∉ names graph.
Proof.
  unfold has_non_node_operand, get_shapes. intros Hann Hnone.
  induction (tail (args node)) as [|a l IH]; [discriminate|].
  cbn in Hnone |- *.
  destruct (arg_shape graph a) as [s|] eqn:Ha.
  - destruct (mapM (arg_shape graph) l) as [ss|] eqn:Hl; [discriminate|].
    destruct (IH eq_refl) as [Hnon | (k & Hk & Hnot)].
    + left. rewrite Hnon. apply orb_true_r.
    + right. exists k. split; [by apply list_elem_of_further | done].
  - destruct a as [k| | | | |]; try (by left).
    right. exists k. split; [apply list_elem_of_here|].
    cbn in Ha. destruct (find_node graph k) as [n|] eqn:Hk.
    + cbn in Ha. rewrite Forall_forall in Hann.
      destruct (Hann n (find_node_elem _ _ _ Hk)) as [s Hs]. congruence.
    + by apply find_node_None.
Qed.

Section AfterShapeProp.
Context `{Laws : ExternalLaws}.

Lemma annotated_lacks_shape pre node post st w w1 st1 :
  let graph := pre ++ node :: post in
  Forall (fun n => is_Some (shape n)) graph ->
  process_nodes graph pre initial_state = (w, Ok st) ->
  process_node graph st node = (w1, Ok st1) ->
  lacks_shape graph node = is_einsum node && has_non_node_operand node.
Proof.
  intros graph Hann Hpre Hstep. unfold lacks_shape.
  destruct (is_einsum node) eqn:He; [|reflexivity]. cbn.
  destruct (has_non_node_operand node) eqn:Hnon.
  - by rewrite (non_node_operand_get_shapes graph node Hnon).
  - destruct (get_shapes graph node) as [shapes|] eqn:Hs; [reflexivity|].
    exfalso.
    destruct (annotated_get_shapes_None graph node Hann Hs) as [?|(k & Hk & Hnot)];
      [congruence|].
    rewrite (process_node_fallback _ _ _ He Hs) in Hstep. injection Hstep as _ Hcopy.
    apply copied_ok in Hcopy as (node' & (_ & _ & _ & Hargs & _) & _).
    assert (Hin : k ∈ concat (map arg_refs (args node))).
    { apply operand_refs_concat. exists (ANode k). split; [|apply list_elem_of_here].
      destruct (args node) as [|a l]; [by apply elem_of_nil in Hk|].
      by apply list_elem_of_further. }
    destruct (map_args_refs_image _ _ _ _ Hargs Hin) as (r & Hr%env_lookup_ok & _).
    destruct (process_nodes_env_keys _ _ _ _ _ k Hpre) as [Hi|Hi]; [by eauto| |].
    + cbn in Hi. rewrite lookup_empty in Hi. by destruct Hi.
    + apply Hnot. unfold graph. rewrite names_app. apply elem_of_app. by left.
Qed.

Lemma annotated_warnings pre nodes st w w' st' :
  Forall (fun n => is_Some (shape n)) (pre ++ nodes) ->
  process_nodes (pre ++ nodes) pre initial_state = (w, Ok st) ->
  process_nodes (pre ++ nodes) nodes st = (w', Ok st') ->
  w' = lacked_shape_warning <$>
         List.filter (fun n => is_einsum n && has_non_node_operand n) nodes.
Proof.
  revert pre st w w'. induction nodes as [|n nodes IH]; intros pre st w w' Hann Hpre;
    cbn [process_nodes List.filter].
  - by intros [= <- _].
  - intros (w1 & st1 & w2 & H1 & H2 & ->)%mbind_ok.
    pose proof (annotated_lacks_shape pre n nodes st w w1 st1 Hann Hpre H1) as Hl.
    rewrite (process_node_warning _ _ _ _ _ H1), Hl.
    assert (Heq : pre ++ n :: nodes = (pre ++ [n]) ++ nodes)
      by (by rewrite <- (assoc_L (++))).
    rewrite Heq in Hann, H1, H2, Hpre.
    rewrite (IH (pre ++ [n]) st1 (w ++ w1) w2 Hann); [|
      rewrite process_nodes_app, Hpre; cbn [mbind M_bind process_nodes];
      rewrite H1; cbn; by rewrite app_nil_r | exact H2].
    by destruct (is_einsum n && has_non_node_operand n).
Qed.

(** X10. On a graph in which every node has a shape, as after [ShapeProp]
    on tensors, a pass that returns a graph has warned exactly about the
    einsum calls that have an operand that is not a node (operands passed
    as one list, for instance), in the order of the graph. *)
Theorem warned_calls_have_non_node_operand graph w G' :
  Forall (fun n => is_Some (shape n)) graph ->
  optimize_einsums_graph graph = (w, Ok G') ->
  w = lacked_shape_warning <$>
        List.filter (fun n => is_einsum n && has_non_node_operand n) graph.
Proof.
  intros Hann (st & Hloop & _)%optimize_einsums_graph_ok.
  by apply (annotated_warnings [] graph initial_state [] w st Hann eq_refl).
Qed.

End AfterShapeProp.

Lemma warned_calls_have_non_node_operand_witness :
  [lacked_shape_warning
     (Tests.mk "einsum_1" call_function Tests.einsum
        [ALit (LStr "ij,jk->ik"); AList [ANode "x"; ANode "y"]] (Some [3; 5]))]
  = lacked_shape_warning <$>
      List.filter (fun n => is_einsum n && has_non_node_operand n) Tests.list_operands.
Proof.
  refine (warned_calls_have_non_node_operand (Ext := Sample.externals)
    Tests.list_operands _ (without_shape <$> Tests.list_operands) _ _).
  - unfold Tests.list_operands. repeat (apply Forall_cons_2; [by eexists|]).
    apply Forall_nil_2.
  - vm_compute. reflexivity.
Defined.
